(** * Bitwarden vault import (src/format/Bitwarden.cpp)

    A shallow embedding of the Bitwarden JSON importer of KeePassXC:
    [readItem], [writeVaultToDatabase] and [BitwardenReader::convert],
    together with the part of Qt and of the KeePassXC core model
    (Entry, EntryAttributes, Group, Database) that these functions call. *)

From Stdlib Require Import ZArith String Ascii List Lia.
From stdpp Require Import base option list gmap strings pretty.

Set Warnings "-register-all".

Local Open Scope string_scope.
Local Open Scope Z_scope.

(** ** Qt: QString *)

Definition QString_isEmpty (s : string) : bool :=
  match s with EmptyString => true | String _ _ => false end.

(** [QString::mid(position, n)]. *)
Definition QString_mid (s : string) (position n : nat) : string :=
  String.substring position n s.

(** [QString(fmt).arg(a)] for a format whose only place marker is [%1]:
    every occurrence of the marker is replaced by [a]; a format without
    marker is returned unchanged. *)
Fixpoint QString_arg (fmt a : string) : string :=
  match fmt with
  | EmptyString => EmptyString
  | String c rest =>
      if Ascii.eqb c "%" then
        match rest with
        | String d rest' =>
            if Ascii.eqb d "1" then a +:+ QString_arg rest' a
            else String c (String d (QString_arg rest' a))
        | EmptyString => String c EmptyString
        end
      else String c (QString_arg rest a)
  end.

(** [QString(fmt).arg(a1, a2)]: the two-argument overload replaces [%1]
    and [%2] in one pass, so the text of [a1] is never searched for
    markers. *)
Fixpoint QString_arg2 (fmt a1 a2 : string) : string :=
  match fmt with
  | EmptyString => EmptyString
  | String c rest =>
      if Ascii.eqb c "%" then
        match rest with
        | String d rest' =>
            if Ascii.eqb d "1" then a1 +:+ QString_arg2 rest' a1 a2
            else if Ascii.eqb d "2" then a2 +:+ QString_arg2 rest' a1 a2
            else String c (String d (QString_arg2 rest' a1 a2))
        | EmptyString => String c EmptyString
        end
      else String c (QString_arg2 rest a1 a2)
  end.

Definition QChar_toLower (c : ascii) : ascii :=
  let n := nat_of_ascii c in
  if (Nat.leb 65 n && Nat.leb n 90)%bool then ascii_of_nat (n + 32) else c.

(** [QString::toLower], on the ASCII letters. *)
Fixpoint QString_toLower (s : string) : string :=
  match s with
  | EmptyString => EmptyString
  | String c rest => String (QChar_toLower c) (QString_toLower rest)
  end.

(** [QObject::tr]: localisation lies outside the importer; the model is
    the behaviour without an installed translator, which returns the
    source text. *)
Definition QObject_tr (sourceText : string) : string := sourceText.

(** ** Qt: QUuid *)

(** A UUID is its 128-bit value. *)
Definition QUuid := N.

Definition QUuid_hexDigit (d : N) : ascii :=
  if (d <? 10)%N then ascii_of_N (48 + d) else ascii_of_N (87 + d).

(** The [k]-th hexadecimal digit of [u], counted from the least
    significant one. *)
Definition QUuid_nibble (u : QUuid) (k : N) : ascii :=
  QUuid_hexDigit (N.land (N.shiftr u (4 * k)) 15).

Fixpoint QUuid_hex (u : QUuid) (from : N) (count : nat) (k : string) : string :=
  match count with
  | O => k
  | S c => String (QUuid_nibble u from) (QUuid_hex u (from - 1) c k)
  end.

(** [QUuid::toString()]: the braced 8-4-4-4-12 lower-case form. *)
Definition QUuid_toString (u : QUuid) : string :=
  String "{"
    (QUuid_hex u 31 8 (String "-"
    (QUuid_hex u 23 4 (String "-"
    (QUuid_hex u 19 4 (String "-"
    (QUuid_hex u 15 4 (String "-"
    (QUuid_hex u 11 12 "}"))))))))).

(** [QUuid::createUuid()] draws from the process-wide random source.
    The source is an explicit supply of UUIDs that every call advances. *)
Record Rng := mkRng { supply : nat → QUuid; cursor : nat }.

Definition createUuid (r : Rng) : QUuid * Rng :=
  (supply r (cursor r), mkRng (supply r) (S (cursor r))).

(** ** Qt: JSON values and their QVariant view *)

(** A JSON value.  A number is the integer it denotes (numbers with a
    fractional part are outside the model); an object is its list of
    members, looked up by key. [item.toVariantMap()] converts the tree to
    QVariant maps and lists of the same shape, so one type serves both
    views and the conversions below carry the name of the view the source
    uses. *)
Inductive QJsonValue : Type :=
  | JUndefined
  | JNull
  | JBool (b : bool)
  | JDouble (n : Z)
  | JString (s : string)
  | JArray (a : list QJsonValue)
  | JObject (o : list (string * QJsonValue)).

Definition QJsonObject := list (string * QJsonValue).

(** [QJsonObject::value(key)] and [QVariantMap::value(key)]: the member
    stored under [key], an undefined value when there is none. *)
Fixpoint value (key : string) (o : QJsonObject) : QJsonValue :=
  match o with
  | [] => JUndefined
  | (k, v) :: rest => if String.eqb k key then v else value key rest
  end.

(** [QJsonObject::contains(key)] and [QVariantMap::contains(key)]. *)
Fixpoint contains (key : string) (o : QJsonObject) : bool :=
  match o with
  | [] => false
  | (k, _) :: rest => if String.eqb k key then true else contains key rest
  end.

(** ** KeePassXC: TOTP settings *)

(** Modelled from the spec: totp/totp.h is outside Bitwarden.cpp. A TOTP
    configuration as the settings parser returns it (§6). *)
Record TotpSettings := mkTotpSettings {
  totp_key : string;
  totp_digits : N;
  totp_step : N;
}.

(** The collaborators of §1 that the importer consumes as library calls:
    Qt's number printer and parser, the JSON tokenizer and the TOTP
    settings parser. Their results on a given text are fixed outside the
    importer. *)
Class Collaborators := {
  (** [QString::number] as used by [QVariant(double).toString()] *)
  QString_number : Z → string;
  (** [QString::toULongLong], 0 when the text is not a number *)
  QString_toULongLong : string → Z;
  (** [QString::toInt], 0 when the text is not a number *)
  QString_toInt : string → Z;
  (** [QJsonDocument::fromJson] followed by [QJsonDocument::object()]:
      the top-level object of the text, empty when the text is not a JSON
      object *)
  QJsonDocument_object : string → list (string * QJsonValue);
  (** Modelled from the spec: [Totp::parseSettings] accepts an otpauth
      string and returns a settings value or a failure (§6) *)
  Totp_parseSettings : string → option TotpSettings;
}.

(** [QJsonValue::toString()]: the text of a string value, empty for
    every other type. *)
Definition QJsonValue_toString (v : QJsonValue) : string :=
  match v with JString s => s | _ => "" end.

Definition QJsonValue_toObject (v : QJsonValue) : QJsonObject :=
  match v with JObject o => o | _ => [] end.

Definition QJsonValue_toArray (v : QJsonValue) : list QJsonValue :=
  match v with JArray a => a | _ => [] end.

(** The cast of a signed 64-bit value to [qulonglong]. *)
Definition to_qulonglong (n : Z) : Z := n mod 2 ^ 64.

(** The cast to [qint64] (and [qlonglong]). *)
Definition to_qint64 (n : Z) : Z := (n + 2 ^ 63) mod 2 ^ 64 - 2 ^ 63.

(** The cast to [int]. *)
Definition to_int (n : Z) : Z := (n + 2 ^ 31) mod 2 ^ 32 - 2 ^ 31.

Section Importer.
Context `{Collaborators}.

(** [QVariant::toString()]: text as it is, booleans and numbers printed,
    empty for null, maps and lists. *)
Definition QVariant_toString (v : QJsonValue) : string :=
  match v with
  | JString s => s
  | JBool true => "true"
  | JBool false => "false"
  | JDouble n => QString_number n
  | _ => ""
  end.

Definition QVariant_isFalseText (s : string) : bool :=
  (QString_isEmpty s || String.eqb s "0" || String.eqb s "false")%bool.

(** [QVariant::toBool()]. *)
Definition QVariant_toBool (v : QJsonValue) : bool :=
  match v with
  | JBool b => b
  | JDouble n => negb (n =? 0)
  | JString s => negb (QVariant_isFalseText (QString_toLower s))
  | _ => false
  end.

(** [QVariant::toULongLong()]: a number is rounded to a qint64 and cast
    (the model has the numbers of the qint64 range, where the rounding
    is exact). *)
Definition QVariant_toULongLong (v : QJsonValue) : Z :=
  match v with
  | JDouble n => to_qulonglong n
  | JBool b => if b then 1 else 0
  | JString s => QString_toULongLong s
  | _ => 0
  end.

(** [QVariant::toInt()]. *)
Definition QVariant_toInt (v : QJsonValue) : Z :=
  match v with
  | JDouble n => to_int n
  | JBool b => if b then 1 else 0
  | JString s => QString_toInt s
  | _ => 0
  end.

(** [QVariant::toMap()]. *)
Definition QVariant_toMap (v : QJsonValue) : QJsonObject :=
  match v with JObject o => o | _ => [] end.

(** [QVariant::toList()]. *)
Definition QVariant_toList (v : QJsonValue) : list QJsonValue :=
  match v with JArray a => a | _ => [] end.

(** [QVariant::toJsonObject()]. *)
Definition QVariant_toJsonObject (v : QJsonValue) : QJsonObject :=
  match v with JObject o => o | _ => [] end.

(** ** Qt: QDateTime *)

Inductive TimeSpec := LocalTime | UTC.

(** An instant, as Qt holds it: the milliseconds since the epoch, a
    qint64, and the time spec. *)
Record QDateTime := mkDateTime { toMSecsSinceEpoch : Z; timeSpec : TimeSpec }.

(** [QDateTime::fromSecsSinceEpoch(qint64 secs, Qt::TimeSpec spec)] is
    [fromMSecsSinceEpoch(secs * 1000, spec)]. The product is a qint64;
    its wrap-around is written out (Qt 5 multiplies without a test), so
    for [secs * 1000] outside the qint64 range the result is not the
    instant [secs] seconds after the epoch. *)
Definition QDateTime_fromSecsSinceEpoch (secs : Z) (spec : TimeSpec) : QDateTime :=
  mkDateTime (to_qint64 (secs * 1000)) spec.

(** [QDateTime::toSecsSinceEpoch()]: the milliseconds divided by 1000,
    with the division of C++. *)
Definition QDateTime_toSecsSinceEpoch (t : QDateTime) : Z :=
  toMSecsSinceEpoch t ÷ 1000.

(** ** KeePassXC core: TimeInfo, EntryAttributes, Entry *)

(** Modelled from the spec: core/TimeInfo.h is outside Bitwarden.cpp. The
    time-info record {created, last-modified, last-accessed} of §3, with
    one setter per component. *)
Record TimeInfo := mkTimeInfo {
  creationTime : QDateTime;
  lastModificationTime : QDateTime;
  lastAccessTime : QDateTime;
}.

Definition TimeInfo_setCreationTime (t : QDateTime) (ti : TimeInfo) : TimeInfo :=
  mkTimeInfo t (lastModificationTime ti) (lastAccessTime ti).

Definition TimeInfo_setLastModificationTime (t : QDateTime) (ti : TimeInfo) : TimeInfo :=
  mkTimeInfo (creationTime ti) t (lastAccessTime ti).

Definition TimeInfo_setLastAccessTime (t : QDateTime) (ti : TimeInfo) : TimeInfo :=
  mkTimeInfo (creationTime ti) (lastModificationTime ti) t.

(** Modelled from the spec: core/EntryAttributes.h is outside
    Bitwarden.cpp. The AttributeSet of §2 and §3: a mapping of attribute name to
    value with a protected flag per name, an existence check, and a [set]
    that stores the value and the flag under the name.

    The store of the storage engine holds, from the construction of an
    entry on and for good, the five default attributes next to the custom
    fields: they carry the title, the username, the password, the primary
    URL and the notes. Their values are the fields of [EntryData] below;
    [m_attributes] holds the custom fields, and the existence check
    answers for both. *)
Record EntryAttributes := mkEntryAttributes {
  m_attributes : gmap string string;
  m_protectedAttributes : gset string;
}.

(** [EntryAttributes::DefaultAttributes]. *)
Definition EntryAttributes_DefaultAttributes : list string :=
  ["Title"; "UserName"; "Password"; "URL"; "Notes"].

Definition EntryAttributes_isDefaultAttribute (key : string) : bool :=
  bool_decide (key ∈ EntryAttributes_DefaultAttributes).

(** [EntryAttributes::hasKey]: true of a default attribute and of a
    custom field that is stored. *)
Definition EntryAttributes_hasKey (key : string) (a : EntryAttributes) : bool :=
  (EntryAttributes_isDefaultAttribute key
   || bool_decide (is_Some (m_attributes a !! key)))%bool.

Definition EntryAttributes_set (key val : string) (protect : bool)
    (a : EntryAttributes) : EntryAttributes :=
  mkEntryAttributes
    (<[key := val]> (m_attributes a))
    (if protect then {[key]} ∪ m_protectedAttributes a
     else m_protectedAttributes a ∖ {[key]}).

(** Modelled from the spec: core/Entry.h is outside Bitwarden.cpp. The
    Entry of §3: identity, title, username, password, notes, primary URL,
    tags, the AttributeSet of custom fields, an optional TOTP
    configuration and the time-info; the history is a list of earlier
    states of these data. *)
Record EntryData := mkEntryData {
  m_uuid : QUuid;
  m_title : string;
  m_username : string;
  m_password : string;
  m_url : string;
  m_notes : string;
  m_tags : list string;
  m_attrs : EntryAttributes;
  m_totp : option TotpSettings;
  m_timeInfo : TimeInfo;
}.

Record Entry := mkEntry {
  m_data : EntryData;
  m_history : list EntryData;
}.

#[global] Instance TimeSpec_eq_dec : EqDecision TimeSpec.
Proof. solve_decision. Defined.
#[global] Instance QDateTime_eq_dec : EqDecision QDateTime.
Proof. solve_decision. Defined.
#[global] Instance TimeInfo_eq_dec : EqDecision TimeInfo.
Proof. solve_decision. Defined.
#[global] Instance TotpSettings_eq_dec : EqDecision TotpSettings.
Proof. solve_decision. Defined.
#[global] Instance EntryAttributes_eq_dec : EqDecision EntryAttributes.
Proof. solve_decision. Defined.
#[global] Instance EntryData_eq_dec : EqDecision EntryData.
Proof. unfold QUuid. solve_decision. Defined.

(** [new Entry()]: the five default attributes with empty texts (the
    text fields below), no tag, no custom field, no TOTP, no history. The
    constructor's time-info comes from the clock of the storage engine;
    it is the epoch here, [readItem] replaces all three components before
    it returns. *)
Definition Entry_new : Entry :=
  let t0 := mkDateTime 0 UTC in
  mkEntry
    (mkEntryData 0%N "" "" "" "" "" []
       (mkEntryAttributes ∅ ∅) None (mkTimeInfo t0 t0 t0))
    [].

Definition Entry_update (f : EntryData → EntryData) (e : Entry) : Entry :=
  mkEntry (f (m_data e)) (m_history e).

Definition Entry_setUuid (u : QUuid) : Entry → Entry :=
  Entry_update (λ d, mkEntryData u (m_title d) (m_username d) (m_password d)
    (m_url d) (m_notes d) (m_tags d) (m_attrs d) (m_totp d) (m_timeInfo d)).

Definition Entry_setTitle (s : string) : Entry → Entry :=
  Entry_update (λ d, mkEntryData (m_uuid d) s (m_username d) (m_password d)
    (m_url d) (m_notes d) (m_tags d) (m_attrs d) (m_totp d) (m_timeInfo d)).

Definition Entry_setUsername (s : string) : Entry → Entry :=
  Entry_update (λ d, mkEntryData (m_uuid d) (m_title d) s (m_password d)
    (m_url d) (m_notes d) (m_tags d) (m_attrs d) (m_totp d) (m_timeInfo d)).

Definition Entry_setPassword (s : string) : Entry → Entry :=
  Entry_update (λ d, mkEntryData (m_uuid d) (m_title d) (m_username d) s
    (m_url d) (m_notes d) (m_tags d) (m_attrs d) (m_totp d) (m_timeInfo d)).

Definition Entry_setUrl (s : string) : Entry → Entry :=
  Entry_update (λ d, mkEntryData (m_uuid d) (m_title d) (m_username d)
    (m_password d) s (m_notes d) (m_tags d) (m_attrs d) (m_totp d)
    (m_timeInfo d)).

Definition Entry_setNotes (s : string) : Entry → Entry :=
  Entry_update (λ d, mkEntryData (m_uuid d) (m_title d) (m_username d)
    (m_password d) (m_url d) s (m_tags d) (m_attrs d) (m_totp d)
    (m_timeInfo d)).

(** [Entry::addTag]: the tags are a set. *)
Definition Entry_addTag (tag : string) : Entry → Entry :=
  Entry_update (λ d, mkEntryData (m_uuid d) (m_title d) (m_username d)
    (m_password d) (m_url d) (m_notes d)
    (if bool_decide (tag ∈ m_tags d) then m_tags d else m_tags d ++ [tag])
    (m_attrs d) (m_totp d) (m_timeInfo d)).

(** [entry->attributes()->set(key, value, protect)] for the name of a
    custom field. [readItem] never passes the name of a default attribute
    (lemma [readItem_names_are_custom]). *)
Definition Entry_setAttribute (key val : string) (protect : bool) : Entry → Entry :=
  Entry_update (λ d, mkEntryData (m_uuid d) (m_title d) (m_username d)
    (m_password d) (m_url d) (m_notes d) (m_tags d)
    (EntryAttributes_set key val protect (m_attrs d)) (m_totp d)
    (m_timeInfo d)).

Definition Entry_setTimeInfo (ti : TimeInfo) : Entry → Entry :=
  Entry_update (λ d, mkEntryData (m_uuid d) (m_title d) (m_username d)
    (m_password d) (m_url d) (m_notes d) (m_tags d) (m_attrs d) (m_totp d)
    ti).

(** Modelled from the spec: [Entry::setTotp] is outside Bitwarden.cpp. It
    attaches the parsed settings (§4.2 step 4); the update keeps the
    state it replaces as a history item, which is the history that step 8
    says may have accumulated on the entry. *)
Definition Entry_setTotp (settings : option TotpSettings) (e : Entry) : Entry :=
  let d := m_data e in
  mkEntry
    (mkEntryData (m_uuid d) (m_title d) (m_username d) (m_password d)
       (m_url d) (m_notes d) (m_tags d) (m_attrs d) settings (m_timeInfo d))
    (m_history e ++ [d]).

Definition Entry_url (e : Entry) : string := m_url (m_data e).
Definition Entry_attributes (e : Entry) : EntryAttributes := m_attrs (m_data e).
Definition Entry_timeInfo (e : Entry) : TimeInfo := m_timeInfo (m_data e).
Definition Entry_historyItems (e : Entry) : list EntryData := m_history e.

(** [QList::removeOne]: removes the first occurrence. *)
Fixpoint QList_removeOne {A} `{EqDecision A} (x : A) (l : list A) : list A :=
  match l with
  | [] => []
  | y :: l' => if decide (x = y) then l' else y :: QList_removeOne x l'
  end.

(** [Entry::removeHistoryItems(items)]: each listed item is taken out of
    the history. *)
Definition Entry_removeHistoryItems (items : list EntryData) (e : Entry) : Entry :=
  mkEntry (m_data e) (foldl (λ h x, QList_removeOne x h) (m_history e) items).

(** ** KeePassXC core: Group, Database *)

(** Modelled from the spec: core/Group.h and core/Database.h are outside
    Bitwarden.cpp. A Database owns one root Group; the Groups made from
    folders are children of the root (one level, §3); every Group holds
    its entries in the order they were attached. *)
Record Group := mkGroup {
  g_uuid : QUuid;
  g_name : string;
  g_entries : list Entry;
}.

Record Database := mkDatabase {
  db_root : Group;
  db_children : list Group;
}.

(** A [Group*] that points into a database: its root, or the child of
    the root at a position. *)
Inductive GroupPtr :=
  | rootGroup
  | childGroup (i : nat).

#[global] Instance GroupPtr_eq_dec : EqDecision GroupPtr.
Proof. solve_decision. Defined.

Definition Group_new : Group := mkGroup 0%N "" [].

Definition Group_setUuid (u : QUuid) (g : Group) : Group :=
  mkGroup u (g_name g) (g_entries g).

Definition Group_setName (n : string) (g : Group) : Group :=
  mkGroup (g_uuid g) n (g_entries g).

Definition Group_addEntry (e : Entry) (g : Group) : Group :=
  mkGroup (g_uuid g) (g_name g) (g_entries g ++ [e]).

(** [group->setParent(db->rootGroup())]: the group becomes the last child
    of the root; the result carries the pointer to it. *)
Definition Group_setParent (g : Group) (db : Database) : GroupPtr * Database :=
  (childGroup (length (db_children db)),
   mkDatabase (db_root db) (db_children db ++ [g])).

(** [entry->setGroup(group, false)] on an entry that has no group yet
    (every entry that [readItem] returns is new): the entry is added to
    the entries of the group. *)
Definition Entry_setGroup (e : Entry) (g : GroupPtr) (db : Database) : Database :=
  match g with
  | rootGroup => mkDatabase (Group_addEntry e (db_root db)) (db_children db)
  | childGroup i =>
      mkDatabase (db_root db) (alter (Group_addEntry e) i (db_children db))
  end.

(** [QSharedPointer<Database>::create()]: a database with its root group
    and nothing else; the root has a generated identity. *)
Definition Database_create (rng : Rng) : Database * Rng :=
  let '(u, rng) := createUuid rng in
  (mkDatabase (Group_setUuid u Group_new) [], rng).

(** The entries of a group of the database. *)
Definition Database_entriesOf (g : GroupPtr) (db : Database) : list Entry :=
  match g with
  | rootGroup => g_entries (db_root db)
  | childGroup i => from_option g_entries [] (db_children db !! i)
  end.

(** All entries that the database owns. *)
Definition Database_entries (db : Database) : list Entry :=
  g_entries (db_root db) ++ concat (g_entries <$> db_children db).

(** ** The importer: readItem (lines 36-145) *)

Definition LF : string := String (ascii_of_nat 10) "".

(** Lines 43-50: the new entry with identity, title, notes and the
    favorite tag. *)
Definition readItem_basic (itemMap : QJsonObject) (u : QUuid) : Entry :=
  let entry := Entry_new in
  let entry := Entry_setUuid u entry in
  let entry := Entry_setTitle (QVariant_toString (value "name" itemMap)) entry in
  let entry := Entry_setNotes (QVariant_toString (value "notes" itemMap)) entry in
  if QVariant_toBool (value "favorite" itemMap)
  then Entry_addTag (QObject_tr "Favorite") entry
  else entry.

(** Line 65: the uri text of an element of [uris]. *)
Definition readItem_uri (urlObj : QJsonValue) : string :=
  QJsonValue_toString (value "uri" (QVariant_toJsonObject urlObj)).

(** Line 69: the attribute name of the overflow URL with index [i]
    ([QString::arg(int)] prints the number in decimal). *)
Definition readItem_urlKey (i : Z) : string :=
  QString_arg "KP2A_URL_%1" (pretty i).

(** Lines 63-72: the loop over [uris], with its counter [i]. A QList holds
    fewer than 2^31 elements, so the [int] counter stays in range. *)
Fixpoint readItem_uris (uris : list QJsonValue) (i : Z) (entry : Entry) : Entry :=
  match uris with
  | [] => entry
  | urlObj :: rest =>
      let url := readItem_uri urlObj in
      if QString_isEmpty (Entry_url entry)
      then readItem_uris rest i (Entry_setUrl url entry)
      else readItem_uris rest (i + 1)
             (Entry_setAttribute (readItem_urlKey i) url false entry)
  end.

(** Lines 53-73. *)
Definition readItem_login (itemMap : QJsonObject) (entry : Entry) : Entry :=
  if contains "login" itemMap then
    let loginMap := QVariant_toMap (value "login" itemMap) in
    let entry := Entry_setUsername (QVariant_toString (value "username" loginMap)) entry in
    let entry := Entry_setPassword (QVariant_toString (value "password" loginMap)) entry in
    let entry :=
      if contains "totp" loginMap
      then Entry_setTotp (Totp_parseSettings (QVariant_toString (value "totp" loginMap))) entry
      else entry in
    readItem_uris (QVariant_toList (value "uris" loginMap)) 1 entry
  else entry.

(** Lines 97-101: the address text. *)
Definition identity_address (idMap : QJsonObject) : string :=
  QVariant_toString (value "address1" idMap) +:+ LF
  +:+ QVariant_toString (value "city" idMap) +:+ ", "
  +:+ QVariant_toString (value "state" idMap) +:+ " "
  +:+ QVariant_toString (value "postalcode" idMap) +:+ LF
  +:+ QVariant_toString (value "country" idMap).

(** Lines 76-103. *)
Definition readItem_identity (itemMap : QJsonObject) (entry : Entry) : Entry :=
  if contains "identity" itemMap then
    let idMap := QVariant_toMap (value "identity" itemMap) in
    Entry_setAttribute "identity_address" (identity_address idMap) false entry
  else entry.

(** Lines 121-124: the name under which a field is stored. *)
Definition readItem_fieldName (fieldMap : QJsonObject) (entry : Entry) (rng : Rng)
    : string * Rng :=
  let name := QVariant_toString (value "name" fieldMap) in
  if EntryAttributes_hasKey name (Entry_attributes entry) then
    let '(u, rng) := createUuid rng in
    (QString_arg2 "%1_%2" name (QString_mid (QUuid_toString u) 1 5), rng)
  else (name, rng).

(** Lines 119-129: the body of the loop over [fields]. *)
Definition readItem_field (st : Entry * Rng) (field : QJsonValue) : Entry * Rng :=
  let '(entry, rng) := st in
  let fieldMap := QVariant_toMap field in
  let '(name, rng) := readItem_fieldName fieldMap entry rng in
  let val := QVariant_toString (value "value" fieldMap) in
  let type := QVariant_toInt (value "type" fieldMap) in
  (Entry_setAttribute name val (type =? 1) entry, rng).

(** The names under which the loop over [fields] stores the fields, in
    order: for each field the name that lines 121-124 give it on the
    entry as it is when the field is reached. *)
Fixpoint readItem_fieldKeys (fields : list QJsonValue) (entry : Entry) (rng : Rng)
    : list string :=
  match fields with
  | [] => []
  | field :: rest =>
      let st := readItem_field (entry, rng) field in
      (readItem_fieldName (QVariant_toMap field) entry rng).1
        :: readItem_fieldKeys rest st.1 st.2
  end.

(** Lines 118-130. *)
Definition readItem_fields (fields : list QJsonValue) (entry : Entry) (rng : Rng)
    : Entry * Rng :=
  foldl readItem_field (entry, rng) fields.

(** Lines 133-142: the history is collapsed and the times are set. *)
Definition readItem_finish (itemMap : QJsonObject) (entry : Entry) : Entry :=
  let entry := Entry_removeHistoryItems (Entry_historyItems entry) entry in
  let timeInfo := Entry_timeInfo entry in
  let createdTime :=
    QDateTime_fromSecsSinceEpoch
      (to_qint64 (QVariant_toULongLong (value "createdAt" itemMap))) UTC in
  let modifiedTime :=
    QDateTime_fromSecsSinceEpoch
      (to_qint64 (QVariant_toULongLong (value "updatedAt" itemMap))) UTC in
  let timeInfo := TimeInfo_setCreationTime createdTime timeInfo in
  let timeInfo := TimeInfo_setLastModificationTime modifiedTime timeInfo in
  let timeInfo := TimeInfo_setLastAccessTime modifiedTime timeInfo in
  Entry_setTimeInfo timeInfo entry.

(** The entry before the loop over [fields] (lines 43-115); the card
    block adds nothing. *)
Definition readItem_beforeFields (itemMap : QJsonObject) (u : QUuid) : Entry :=
  readItem_identity itemMap (readItem_login itemMap (readItem_basic itemMap u)).

(** The names under which [readItem] stores the custom fields of an
    item. *)
Definition readItem_storedNames (item : QJsonObject) (rng : Rng) : list string :=
  let '(u, rng) := createUuid rng in
  readItem_fieldKeys (QVariant_toList (value "fields" item))
    (readItem_beforeFields item u) rng.

(** [Entry* readItem(const QJsonObject& item, QString& folderId)]: the
    entry, the folder id written to the out-parameter, and the advanced
    random source. The returned pointer is never null. *)
Definition readItem (item : QJsonObject) (rng : Rng) : Entry * string * Rng :=
  let itemMap := item in
  let folderId := QVariant_toString (value "folderId" itemMap) in
  let '(u, rng) := createUuid rng in
  let entry := readItem_beforeFields itemMap u in
  let '(entry, rng) :=
    readItem_fields (QVariant_toList (value "fields" itemMap)) entry rng in
  (readItem_finish itemMap entry, folderId, rng).

(** ** The importer: writeVaultToDatabase (lines 147-173) *)

(** Line 162: the id text of a folder. *)
Definition writeVault_folderId (folder : QJsonValue) : string :=
  QJsonValue_toString (value "id" (QJsonValue_toObject folder)).

(** Lines 156-163: the body of the loop over [folders]. *)
Definition writeVault_folder (st : gmap string GroupPtr * Database * Rng)
    (folder : QJsonValue) : gmap string GroupPtr * Database * Rng :=
  let '(folderMap, db, rng) := st in
  let '(u, rng) := createUuid rng in
  let group := Group_new in
  let group := Group_setUuid u group in
  let group :=
    Group_setName (QJsonValue_toString (value "name" (QJsonValue_toObject folder)))
      group in
  let '(ptr, db) := Group_setParent group db in
  (<[writeVault_folderId folder := ptr]> folderMap, db, rng).

(** Lines 167-172: the body of the loop over [items]. *)
Definition writeVault_item (folderMap : gmap string GroupPtr)
    (st : Database * Rng) (item : QJsonValue) : Database * Rng :=
  let '(db, rng) := st in
  let '(entry, folderId, rng) := readItem (QJsonValue_toObject item) rng in
  (Entry_setGroup entry (default rootGroup (folderMap !! folderId)) db, rng).

(** What the loop over [items] obtains from [readItem], in order: each
    entry with the folder id of its item. *)
Fixpoint writeVault_readItems (items : list QJsonValue) (rng : Rng)
    : list (Entry * string) :=
  match items with
  | [] => []
  | item :: rest =>
      let '(entry, folderId, rng) := readItem (QJsonValue_toObject item) rng in
      (entry, folderId) :: writeVault_readItems rest rng
  end.

Definition writeVaultToDatabase (vault : QJsonObject) (db : Database) (rng : Rng)
    : Database * Rng :=
  if (negb (contains "folders" vault) || negb (contains "items" vault))%bool then
    (db, rng)
  else
    let '(folderMap, db, rng) :=
      foldl writeVault_folder (∅, db, rng)
        (QJsonValue_toArray (value "folders" vault)) in
    let items := QJsonValue_toArray (value "items" vault) in
    foldl (writeVault_item folderMap) (db, rng) items.

(** ** The importer: BitwardenReader (lines 176-210) *)

(** What the file system answers for a path: [QFileInfo::exists()] is
    false; the file exists and [QFile::open] fails with an error string;
    or the file opens and [readAll] returns its content. *)
Inductive FileState :=
  | NoSuchFile
  | CannotOpen (errorString : string)
  | Opens (content : string).

Record BitwardenReader := mkReader { m_error : string }.

Definition hasError (r : BitwardenReader) : bool := negb (QString_isEmpty (m_error r)).

Definition errorString (r : BitwardenReader) : string := m_error r.

(** [BitwardenReader::convert(path)]: the returned pointer (null is
    [None]), the reader with its error text, and the random source. *)
Definition convert (fs : string → FileState) (path : string)
    (r : BitwardenReader) (rng : Rng) : option Database * BitwardenReader * Rng :=
  let r := mkReader "" in
  match fs path with
  | NoSuchFile =>
      (None, mkReader (QString_arg (QObject_tr "File does not exist.") path), rng)
  | CannotOpen reason =>
      (None, mkReader (QString_arg (QObject_tr "Cannot open file: %1") reason), rng)
  | Opens content =>
      let '(db, rng) := Database_create rng in
      let json := QJsonDocument_object content in
      let '(db, rng) := writeVaultToDatabase json db rng in
      (Some db, r, rng)
  end.

End Importer.
(** ** Sample inputs *)

(** The number that a text of decimal digits denotes, 0 for every other
    text. *)
Fixpoint sampleDigits (s : string) (acc : Z) : option Z :=
  match s with
  | EmptyString => Some acc
  | String c rest =>
      let d := Z.of_N (N_of_ascii c) - 48 in
      if ((0 <=? d) && (d <=? 9))%bool then sampleDigits rest (10 * acc + d) else None
  end.

Definition sampleNumber (s : string) : Z :=
  if QString_isEmpty s then 0 else default 0 (sampleDigits s 0).

(** Collaborators for the examples: numbers print in decimal, a text of
    decimal digits parses as its number (0 when out of range), no text
    parses as a JSON object, and every non-empty text is a TOTP
    secret. *)
Definition sampleCollaborators : Collaborators := {|
  QString_number := pretty;
  QString_toULongLong := λ s, let n := sampleNumber s in if n <? 2 ^ 64 then n else 0;
  QString_toInt := λ s, let n := sampleNumber s in if n <? 2 ^ 31 then n else 0;
  QJsonDocument_object := λ _, [];
  Totp_parseSettings := λ s,
    if QString_isEmpty s then None else Some (mkTotpSettings s 6 30);
|}.

(** A random source whose UUIDs (version 4, variant 1) all start with the
    digits 3f2a9 and differ in the last field. *)
Definition sampleRng : Rng :=
  mkRng (λ n, (0x3f2a9c01 * 2 ^ 96 + 0x4000 * 2 ^ 64 + 0x8000 * 2 ^ 48 + N.of_nat n)%N) 0.

(** A login whose first uri is empty. *)
Definition item_leading_empty_uri : QJsonObject :=
  [("name", JString "mail");
   ("login", JObject
      [("username", JString "jane");
       ("uris", JArray
          [JObject [("uri", JString "")];
           JObject [("uri", JString "https://a.example")];
           JObject [("uri", JString "https://b.example")]])])].

(** A login with three uris, a TOTP secret, two custom fields and
    times. *)
Definition item_login : QJsonObject :=
  [("name", JString "mail");
   ("folderId", JString "f1");
   ("login", JObject
      [("username", JString "jane");
       ("totp", JString "otpauth://totp/x?secret=abc");
       ("uris", JArray
          [JObject [("uri", JString "https://a.example")];
           JObject [("uri", JString "https://b.example")];
           JObject [("uri", JString "https://c.example")]])]);
   ("fields", JArray
      [JObject [("name", JString "pin"); ("value", JString "1"); ("type", JDouble 1)];
       JObject [("name", JString "pin"); ("value", JString "2"); ("type", JDouble 0)]]);
   ("createdAt", JDouble 1600000000);
   ("updatedAt", JDouble 1650000000)].

(** A custom field that has the name of a default attribute. *)
Definition field_named_Title : QJsonValue :=
  JObject [("name", JString "Title"); ("value", JString "Dr.")].

(** Three custom fields of one name. *)
Definition item_three_fields : QJsonObject :=
  [("name", JString "card");
   ("fields", JArray
      [JObject [("name", JString "pin"); ("value", JString "1")];
       JObject [("name", JString "pin"); ("value", JString "2")];
       JObject [("name", JString "pin"); ("value", JString "3")]])].

(** The identity of the comment at lines 78-95. *)
Definition item_identity : QJsonObject :=
  [("name", JString "Jane");
   ("identity", JObject
      [("address1", JString "1 North Calle Cesar Chavez");
       ("city", JString "Santa Barbara");
       ("state", JString "CA");
       ("postalCode", JString "93103");
       ("country", JString "United States")])].

(** A vault with a folder that has no id, and two items without a folder:
    one has no [folderId], the other an empty one. *)
Definition vault_folder_without_id : QJsonObject :=
  [("folders", JArray [JObject [("id", JNull); ("name", JString "No Folder")]]);
   ("items", JArray
      [JObject [("name", JString "mail")];
       JObject [("name", JString "bank"); ("folderId", JString "")]])].

(** A vault with two folders of one id and a third folder, and items for
    both ids, for an unknown id and for no folder. *)
Definition vault_sample : QJsonObject :=
  [("folders", JArray
      [JObject [("id", JString "f1"); ("name", JString "Work")];
       JObject [("id", JString "f2"); ("name", JString "Home")];
       JObject [("id", JString "f1"); ("name", JString "Work again")]]);
   ("items", JArray
      [JObject item_login;
       JObject [("name", JString "bank"); ("folderId", JString "f2")];
       JObject [("name", JString "wifi"); ("folderId", JString "gone")];
       JObject item_identity])].

(** The new database of a conversion, and the random source after its
    creation. *)
Definition sampleDatabase : Database := (Database_create sampleRng).1.

Definition sampleRng1 : Rng := (Database_create sampleRng).2.

(** The titles of a list of entries. *)
Definition titles (entries : list Entry) : list string :=
  (λ entry, m_title (m_data entry)) <$> entries.

(** A file system with one unreadable file and one readable file. *)
Definition sampleFiles (path : string) : FileState :=
  if String.eqb path "/locked.json" then CannotOpen "Permission denied"
  else if String.eqb path "/vault.json" then Opens "not a vault"
  else NoSuchFile.

(** The data of an entry that only the head of [readItem] and its login
    block write: identity, title, username, password, notes, tags and
    TOTP settings. *)
Definition Entry_core (e : Entry)
    : QUuid * string * string * string * string * list string * option TotpSettings :=
  let d := m_data e in
  (m_uuid d, m_title d, m_username d, m_password d, m_notes d, m_tags d, m_totp d).

(** The set of protected attribute names of an entry. *)
Abbreviation protectedOf e := (m_protectedAttributes (Entry_attributes e)).

(** The members of an item that [readItem] looks up (lines 40-138). *)
Definition readItem_keys : list string :=
  ["folderId"; "name"; "notes"; "favorite"; "login"; "identity"; "card"; "fields";
   "createdAt"; "updatedAt"].

(** The identity and the name of a group. *)
Definition Group_label (g : Group) : QUuid * string := (g_uuid g, g_name g).

(** Line 159: the name text of a folder. *)
Definition folderName (folder : QJsonValue) : string :=
  QJsonValue_toString (value "name" (QJsonValue_toObject folder)).

(** The identities of a database: of its root, of the children of the
    root and of all entries. *)
Definition Database_uuids (db : Database) : list QUuid :=
  g_uuid (db_root db) :: (g_uuid <$> db_children db)
    ++ ((λ e, m_uuid (m_data e)) <$> Database_entries db).

(** Collaborators whose tokenizer reads every text as the sample vault. *)
Definition vaultCollaborators : Collaborators := {|
  QString_number := pretty;
  QString_toULongLong := λ s, let n := sampleNumber s in if n <? 2 ^ 64 then n else 0;
  QString_toInt := λ s, let n := sampleNumber s in if n <? 2 ^ 31 then n else 0;
  QJsonDocument_object := λ _, vault_sample;
  Totp_parseSettings := λ s,
    if QString_isEmpty s then None else Some (mkTotpSettings s 6 30);
|}.

(** An identity with a custom field that has the name of the address
    attribute. *)
Definition item_identity_field : QJsonObject :=
  [("name", JString "Jane");
   ("identity", JObject
      [("address1", JString "1 North Calle Cesar Chavez");
       ("city", JString "Santa Barbara");
       ("state", JString "CA");
       ("postalcode", JString "93103");
       ("country", JString "United States")]);
   ("fields", JArray
      [JObject [("name", JString "identity_address"); ("value", JString "elsewhere");
                ("type", JDouble 1)]])].

(** A note: no login, no identity, no fields, no times. *)
Definition item_note : QJsonObject :=
  [("name", JString "door code"); ("notes", JString "4711"); ("favorite", JBool true)].

(** A vault whose [folders] member is null. *)
Definition vault_null_folders : QJsonObject :=
  [("folders", JNull);
   ("items", JArray
      [JObject item_note;
       JObject [("name", JString "bank"); ("folderId", JString "f2")]])].

(** ** Properties *)

(** A group pointer is valid in a database when it is the root or a
    position among the children of the root. *)
Definition validPtr (g : GroupPtr) (db : Database) : Prop :=
  match g with
  | rootGroup => True
  | childGroup i => (i < length (db_children db))%nat
  end.

(** The name-to-value map of the attributes of an entry. *)
Abbreviation attrsOf e := (m_attributes (Entry_attributes e)).

Section Properties.
Context `{Collaborators}.

(** *** History and times *)

Lemma QList_removeOne_head {A} `{EqDecision A} (x : A) (l : list A) :
  QList_removeOne x (x :: l) = l.
Proof. simpl. by rewrite decide_True. Qed.

Lemma removeHistoryItems_all (l : list EntryData) :
  foldl (λ h x, QList_removeOne x h) l l = [].
Proof.
  induction l as [|x l IH]; [done|].
  cbn [foldl]. by rewrite QList_removeOne_head.
Qed.

Lemma readItem_unfold (item : QJsonObject) (rng : Rng) :
  readItem item rng =
    let u := supply rng (cursor rng) in
    let st := readItem_fields (QVariant_toList (value "fields" item))
                (readItem_beforeFields item u) (mkRng (supply rng) (S (cursor rng))) in
    (readItem_finish item st.1, QVariant_toString (value "folderId" item), st.2).
Proof. unfold readItem, createUuid. cbn zeta. by destruct (readItem_fields _ _ _). Qed.

(** C9: the entry that [readItem] returns has no history item, whatever
    the item is; the history that the construction accumulated (the
    update of the TOTP settings leaves one item) is removed at line 133. *)
Theorem readItem_no_history (item : QJsonObject) (rng : Rng) :
  Entry_historyItems (readItem item rng).1.1 = [].
Proof.
  rewrite readItem_unfold. cbn.
  apply removeHistoryItems_all.
Qed.

Lemma to_qint64_qulonglong (n : Z) :
  - 2 ^ 63 ≤ n < 2 ^ 63 → to_qint64 (to_qulonglong n) = n.
Proof.
  intros Hn. unfold to_qint64, to_qulonglong.
  rewrite Zplus_mod_idemp_l.
  rewrite Z.mod_small; lia.
Qed.

Lemma readItem_timeInfo (item : QJsonObject) (rng : Rng) :
  Entry_timeInfo (readItem item rng).1.1 =
    let modified :=
      QDateTime_fromSecsSinceEpoch
        (to_qint64 (QVariant_toULongLong (value "updatedAt" item))) UTC in
    mkTimeInfo
      (QDateTime_fromSecsSinceEpoch
         (to_qint64 (QVariant_toULongLong (value "createdAt" item))) UTC)
      modified modified.
Proof. rewrite readItem_unfold. reflexivity. Qed.

Lemma QDateTime_fromSecsSinceEpoch_exact (secs : Z) (spec : TimeSpec) :
  - 2 ^ 63 ≤ secs * 1000 < 2 ^ 63 →
  QDateTime_fromSecsSinceEpoch (to_qint64 (to_qulonglong secs)) spec
    = mkDateTime (secs * 1000) spec.
Proof.
  intros Hrange. unfold QDateTime_fromSecsSinceEpoch.
  rewrite to_qint64_qulonglong by lia. f_equal.
  unfold to_qint64. rewrite Z.mod_small; lia.
Qed.

(** C8: when [createdAt] and [updatedAt] are integers whose count of
    milliseconds fits a qint64 (the range of QDateTime), the creation time
    of the entry is the instant [createdAt] seconds after the epoch, its
    last-modification time is the instant [updatedAt] seconds after the
    epoch, and its last-access time is the last-modification time, all
    three in UTC. *)
Theorem readItem_times (item : QJsonObject) (rng : Rng) (createdAt updatedAt : Z) :
  value "createdAt" item = JDouble createdAt →
  value "updatedAt" item = JDouble updatedAt →
  - 2 ^ 63 ≤ createdAt * 1000 < 2 ^ 63 →
  - 2 ^ 63 ≤ updatedAt * 1000 < 2 ^ 63 →
  let timeInfo := Entry_timeInfo (readItem item rng).1.1 in
  creationTime timeInfo = mkDateTime (createdAt * 1000) UTC
  ∧ lastModificationTime timeInfo = mkDateTime (updatedAt * 1000) UTC
  ∧ lastAccessTime timeInfo = lastModificationTime timeInfo
  ∧ QDateTime_toSecsSinceEpoch (creationTime timeInfo) = createdAt
  ∧ QDateTime_toSecsSinceEpoch (lastModificationTime timeInfo) = updatedAt
  ∧ QDateTime_toSecsSinceEpoch (lastAccessTime timeInfo) = updatedAt.
Proof.
  intros Hc Hu Hcr Hur. cbn zeta.
  rewrite readItem_timeInfo, Hc, Hu. cbn zeta.
  cbn [QVariant_toULongLong creationTime lastModificationTime lastAccessTime].
  rewrite !QDateTime_fromSecsSinceEpoch_exact by done.
  unfold QDateTime_toSecsSinceEpoch. cbn [toMSecsSinceEpoch].
  rewrite !Z.quot_mul by lia. done.
Qed.

(** *** The loop over [uris] *)

Lemma string_app_nil_r (s : string) : s +:+ "" = s.
Proof.
  induction s as [|c s IH]; [done|].
  change (String c (s +:+ "") = String c s). by rewrite IH.
Qed.

Lemma QString_arg_urlKey (s : string) :
  QString_arg "KP2A_URL_%1" s = "KP2A_URL_" +:+ s.
Proof. cbn. by rewrite string_app_nil_r. Qed.

Lemma readItem_urlKey_eq (i : Z) : readItem_urlKey i = "KP2A_URL_" +:+ pretty i.
Proof. apply QString_arg_urlKey. Qed.

Lemma readItem_urlKey_inj (i j : Z) : readItem_urlKey i = readItem_urlKey j → i = j.
Proof.
  rewrite !readItem_urlKey_eq. intros Heq.
  apply (inj (String.append "KP2A_URL_")) in Heq. by apply (inj pretty) in Heq.
Qed.

Lemma readItem_urlKey_not_address (i : Z) : readItem_urlKey i ≠ "identity_address".
Proof. rewrite readItem_urlKey_eq. generalize (pretty i). intros s. cbn. discriminate. Qed.

Lemma QString_isEmpty_true (s : string) : QString_isEmpty s = true ↔ s = "".
Proof. destruct s; cbn; split; congruence. Qed.

Lemma QString_isEmpty_false (s : string) : QString_isEmpty s = false ↔ s ≠ "".
Proof. destruct s; cbn; split; congruence. Qed.

(** Once the primary URL is set, the loop leaves it alone and stores the
    element at position [k] under the index [i + k]. *)
Lemma readItem_uris_url_set (uris : list QJsonValue) (i : Z) (entry : Entry) :
  QString_isEmpty (Entry_url entry) = false →
  Entry_url (readItem_uris uris i entry) = Entry_url entry.
Proof.
  revert i entry. induction uris as [|urlObj uris IH]; intros i entry Hurl; [done|].
  cbn [readItem_uris]. rewrite Hurl. by rewrite IH.
Qed.

Lemma readItem_uris_other (uris : list QJsonValue) (i : Z) (entry : Entry) (key : string) :
  QString_isEmpty (Entry_url entry) = false →
  (∀ k : nat, (k < length uris)%nat → key ≠ readItem_urlKey (i + Z.of_nat k)) →
  attrsOf (readItem_uris uris i entry) !! key = attrsOf entry !! key.
Proof.
  revert i entry. induction uris as [|urlObj uris IH]; intros i entry Hurl Hkey; [done|].
  cbn [readItem_uris]. rewrite Hurl. rewrite IH.
  - cbn. apply lookup_insert_ne. intros Heq.
    apply (Hkey 0%nat); [cbn; lia|]. by rewrite Z.add_0_r.
  - done.
  - intros k Hk. replace (i + 1 + Z.of_nat k) with (i + Z.of_nat (S k)) by lia.
    apply Hkey. cbn. lia.
Qed.

Lemma readItem_uris_overflow (uris : list QJsonValue) (i : Z) (entry : Entry)
    (k : nat) (urlObj : QJsonValue) :
  QString_isEmpty (Entry_url entry) = false →
  uris !! k = Some urlObj →
  attrsOf (readItem_uris uris i entry) !! readItem_urlKey (i + Z.of_nat k)
    = Some (readItem_uri urlObj).
Proof.
  revert i entry k.
  induction uris as [|x uris IH]; intros i entry k Hurl Hk; [done|].
  cbn [readItem_uris]. rewrite Hurl.
  destruct k as [|k].
  - injection Hk as ->. rewrite Z.add_0_r.
    rewrite readItem_uris_other; [cbn; apply lookup_insert_eq|done|].
    intros k _ Heq. apply readItem_urlKey_inj in Heq. lia.
  - replace (i + Z.of_nat (S k)) with (i + 1 + Z.of_nat k) by lia. by apply IH.
Qed.

(** While the primary URL is empty, an element with an empty uri text
    changes nothing. *)
Lemma readItem_uris_skip (empties rest : list QJsonValue) (i : Z) (entry : Entry) :
  QString_isEmpty (Entry_url entry) = true →
  Forall (λ urlObj, readItem_uri urlObj = "") empties →
  readItem_uris (empties ++ rest) i entry = readItem_uris rest i entry.
Proof.
  intros Hurl Hall. induction Hall as [|x empties Hx _ IH]; [done|].
  cbn [app readItem_uris]. rewrite Hurl, Hx.
  apply QString_isEmpty_true in Hurl.
  destruct entry as [[] ?]. cbn in Hurl. subst. exact IH.
Qed.

(** *** The loop over [fields] *)

Lemma readItem_field_eq (entry : Entry) (rng : Rng) (field : QJsonValue) :
  readItem_field (entry, rng) field =
    let named := readItem_fieldName (QVariant_toMap field) entry rng in
    (Entry_setAttribute named.1
       (QVariant_toString (value "value" (QVariant_toMap field)))
       (QVariant_toInt (value "type" (QVariant_toMap field)) =? 1) entry,
     named.2).
Proof. unfold readItem_field. by destruct (readItem_fieldName _ _ _). Qed.

Lemma readItem_fields_cons (field : QJsonValue) (fields : list QJsonValue)
    (entry : Entry) (rng : Rng) :
  readItem_fields (field :: fields) entry rng =
    readItem_fields fields (readItem_field (entry, rng) field).1
      (readItem_field (entry, rng) field).2.
Proof. unfold readItem_fields. cbn [foldl]. by destruct (readItem_field _ _). Qed.

Lemma QString_arg2_suffix (name suffix : string) :
  QString_arg2 "%1_%2" name suffix = name +:+ "_" +:+ suffix.
Proof. cbn. by rewrite string_app_nil_r. Qed.

Lemma readItem_fieldName_form (fieldMap : QJsonObject) (entry : Entry) (rng : Rng) :
  let name := QVariant_toString (value "name" fieldMap) in
  let key := (readItem_fieldName fieldMap entry rng).1 in
  (EntryAttributes_hasKey name (Entry_attributes entry) = false ∧ key = name)
  ∨ (EntryAttributes_hasKey name (Entry_attributes entry) = true
     ∧ ∃ u : QUuid, key = name +:+ "_" +:+ QString_mid (QUuid_toString u) 1 5).
Proof.
  cbn zeta. unfold readItem_fieldName.
  destruct (EntryAttributes_hasKey _ _); [right|left]; split; try done.
  eexists. cbn [createUuid fst]. apply QString_arg2_suffix.
Qed.

Lemma readItem_fields_url (fields : list QJsonValue) (entry : Entry) (rng : Rng) :
  Entry_url (readItem_fields fields entry rng).1 = Entry_url entry.
Proof.
  revert entry rng. induction fields as [|field fields IH]; intros entry rng; [done|].
  rewrite readItem_fields_cons, IH, readItem_field_eq. done.
Qed.

(** A name under which no field is stored keeps its attribute. *)
Lemma readItem_fields_other (fields : list QJsonValue) (entry : Entry) (rng : Rng)
    (key : string) :
  key ∉ readItem_fieldKeys fields entry rng →
  attrsOf (readItem_fields fields entry rng).1 !! key = attrsOf entry !! key.
Proof.
  revert entry rng. induction fields as [|field fields IH]; intros entry rng Hkey; [done|].
  cbn [readItem_fieldKeys] in Hkey. apply not_elem_of_cons in Hkey as [Hne Hkey].
  rewrite readItem_fields_cons, IH by done.
  rewrite readItem_field_eq. cbn. by apply lookup_insert_ne.
Qed.

(** When every stored name is new at the moment it is used, each field
    adds one attribute and none is replaced. *)
Lemma readItem_fields_fresh (fields : list QJsonValue) (entry : Entry) (rng : Rng) :
  NoDup (readItem_fieldKeys fields entry rng) →
  (∀ key, key ∈ readItem_fieldKeys fields entry rng → attrsOf entry !! key = None) →
  let result := (readItem_fields fields entry rng).1 in
  size (attrsOf result) = (size (attrsOf entry) + length fields)%nat
  ∧ attrsOf entry ⊆ attrsOf result
  ∧ ∀ (i : nat) field, fields !! i = Some field →
      ∃ key, readItem_fieldKeys fields entry rng !! i = Some key
        ∧ attrsOf result !! key
            = Some (QVariant_toString (value "value" (QVariant_toMap field))).
Proof.
  revert entry rng.
  induction fields as [|field fields IH]; intros entry rng Hnodup Hnew; cbn zeta.
  { cbn. split; [lia|]. split; [done|]. intros i f Hf. done. }
  cbn [readItem_fieldKeys] in *.
  apply NoDup_cons in Hnodup as [Hhead Hnodup].
  rewrite readItem_fields_cons.
  set (key0 := (readItem_fieldName (QVariant_toMap field) entry rng).1) in *.
  set (st := readItem_field (entry, rng) field) in *.
  assert (Hst : attrsOf st.1
    = <[key0 := QVariant_toString (value "value" (QVariant_toMap field))]> (attrsOf entry)).
  { unfold st. by rewrite readItem_field_eq. }
  assert (Hkey0 : attrsOf entry !! key0 = None) by (apply Hnew; left).
  destruct (IH st.1 st.2 Hnodup) as (Hsize & Hsub & Hfields).
  { intros key Hkey. rewrite Hst, lookup_insert_ne; [apply Hnew; by right|].
    intros ->. done. }
  split; [|split].
  - rewrite Hsize, Hst, map_size_insert_None by done. cbn. lia.
  - etrans; [|exact Hsub]. rewrite Hst. by apply insert_subseteq.
  - intros [|i] f Hf.
    + injection Hf as ->. exists key0. split; [done|].
      eapply lookup_weaken; [|exact Hsub]. rewrite Hst. apply lookup_insert_eq.
    + by apply Hfields.
Qed.

(** *** The entry that [readItem] returns *)

Lemma readItem_basic_blank (item : QJsonObject) (u : QUuid) :
  Entry_url (readItem_basic item u) = "" ∧ attrsOf (readItem_basic item u) = ∅.
Proof. unfold readItem_basic. by destruct (QVariant_toBool _). Qed.

Lemma readItem_login_uris (item : QJsonObject) (entry : Entry) :
  contains "login" item = true →
  ∃ entry0,
    readItem_login item entry
      = readItem_uris
          (QVariant_toList (value "uris" (QVariant_toMap (value "login" item)))) 1 entry0
    ∧ Entry_url entry0 = Entry_url entry
    ∧ attrsOf entry0 = attrsOf entry.
Proof.
  intros Hlogin. unfold readItem_login. rewrite Hlogin.
  destruct (contains "totp" _); eexists; (split; [reflexivity|done]).
Qed.

Lemma readItem_identity_url (item : QJsonObject) (entry : Entry) :
  Entry_url (readItem_identity item entry) = Entry_url entry.
Proof. unfold readItem_identity. by destruct (contains _ _). Qed.

Lemma readItem_identity_other (item : QJsonObject) (entry : Entry) (key : string) :
  key ≠ "identity_address" →
  attrsOf (readItem_identity item entry) !! key = attrsOf entry !! key.
Proof.
  intros Hkey. unfold readItem_identity. destruct (contains _ _); [|done].
  cbn. by apply lookup_insert_ne.
Qed.

Lemma readItem_url (item : QJsonObject) (rng : Rng) :
  Entry_url (readItem item rng).1.1
    = Entry_url (readItem_login item (readItem_basic item (supply rng (cursor rng)))).
Proof.
  rewrite readItem_unfold. cbn zeta. cbn [fst].
  change (Entry_url (readItem_finish item ?e)) with (Entry_url e).
  rewrite readItem_fields_url. unfold readItem_beforeFields.
  by rewrite readItem_identity_url.
Qed.

Lemma readItem_attributes (item : QJsonObject) (rng : Rng) :
  attrsOf (readItem item rng).1.1
    = attrsOf (readItem_fields (QVariant_toList (value "fields" item))
                 (readItem_beforeFields item (supply rng (cursor rng)))
                 (mkRng (supply rng) (S (cursor rng)))).1.
Proof. by rewrite readItem_unfold. Qed.

(** An overflow-URL name keeps, on the returned entry, what the login
    block stored under it, unless a custom field took the name. *)
Lemma readItem_urlKey_lookup (item : QJsonObject) (rng : Rng) (i : Z) :
  readItem_urlKey i ∉ readItem_storedNames item rng →
  attrsOf (readItem item rng).1.1 !! readItem_urlKey i
    = attrsOf (readItem_login item (readItem_basic item (supply rng (cursor rng))))
        !! readItem_urlKey i.
Proof.
  intros Hstored. rewrite readItem_attributes.
  rewrite readItem_fields_other by exact Hstored.
  unfold readItem_beforeFields.
  apply readItem_identity_other, readItem_urlKey_not_address.
Qed.

(** C1, as the code has it: when the first element of [login.uris] has a
    non-empty uri text, that text is the primary URL of the entry, and for
    every k >= 1 the uri text of [uris[k]] is the attribute [KP2A_URL_k],
    as long as no custom field of the item is stored under that name. *)
Theorem readItem_uris_first_nonempty (item : QJsonObject) (rng : Rng)
    (uris : list QJsonValue) (first : QJsonValue) :
  contains "login" item = true →
  QVariant_toList (value "uris" (QVariant_toMap (value "login" item))) = uris →
  uris !! 0%nat = Some first →
  readItem_uri first ≠ "" →
  let entry := (readItem item rng).1.1 in
  Entry_url entry = readItem_uri first
  ∧ ∀ (k : nat) (urlObj : QJsonValue),
      (1 ≤ k)%nat →
      uris !! k = Some urlObj →
      readItem_urlKey (Z.of_nat k) ∉ readItem_storedNames item rng →
      attrsOf entry !! readItem_urlKey (Z.of_nat k) = Some (readItem_uri urlObj).
Proof.
  intros Hlogin Huris Hfirst Hne. cbn zeta.
  destruct uris as [|x rest]; [done|]. injection Hfirst as ->.
  destruct (readItem_basic_blank item (supply rng (cursor rng))) as [Hurl0 Hattrs0].
  destruct (readItem_login_uris item
              (readItem_basic item (supply rng (cursor rng))) Hlogin)
    as (entry0 & Heq & Hurl & Hattrs).
  rewrite Huris in Heq. rewrite Hurl0 in Hurl.
  cbn [readItem_uris] in Heq. rewrite Hurl in Heq. cbn [QString_isEmpty] in Heq.
  assert (Hset : QString_isEmpty (Entry_url (Entry_setUrl (readItem_uri first) entry0)) = false).
  { by apply QString_isEmpty_false. }
  split.
  - rewrite readItem_url, Heq. by rewrite readItem_uris_url_set.
  - intros k urlObj Hk Hlook Hstored.
    rewrite readItem_urlKey_lookup by done. rewrite Heq.
    destruct k as [|k]; [lia|]. cbn in Hlook.
    replace (Z.of_nat (S k)) with (1 + Z.of_nat k) by lia.
    by apply readItem_uris_overflow.
Qed.

(** C10: leading elements of [login.uris] with an empty uri text do not
    take the primary slot. The first non-empty uri text is the primary
    URL, and the overflow attributes [KP2A_URL_1], [KP2A_URL_2], ... hold
    the uri texts of the elements after it and of no other; when every
    uri text is empty the primary URL is empty and there is no overflow
    attribute. (A name that a custom field of the item is stored under is
    left aside.) *)
Theorem readItem_uris_leading_empty (item : QJsonObject) (rng : Rng)
    (empties rest : list QJsonValue) :
  contains "login" item = true →
  QVariant_toList (value "uris" (QVariant_toMap (value "login" item)))
    = (empties ++ rest)%list →
  Forall (λ urlObj, readItem_uri urlObj = "") empties →
  let entry := (readItem item rng).1.1 in
  match rest with
  | [] =>
      Entry_url entry = ""
      ∧ ∀ i : Z, readItem_urlKey i ∉ readItem_storedNames item rng →
          attrsOf entry !! readItem_urlKey i = None
  | first :: tail =>
      readItem_uri first ≠ "" →
      Entry_url entry = readItem_uri first
      ∧ ∀ k : nat,
          readItem_urlKey (Z.of_nat k + 1) ∉ readItem_storedNames item rng →
          attrsOf entry !! readItem_urlKey (Z.of_nat k + 1)
            = readItem_uri <$> tail !! k
  end.
Proof.
  intros Hlogin Huris Hempty. cbn zeta.
  destruct (readItem_basic_blank item (supply rng (cursor rng))) as [Hurl0 Hattrs0].
  destruct (readItem_login_uris item
              (readItem_basic item (supply rng (cursor rng))) Hlogin)
    as (entry0 & Heq & Hurl & Hattrs).
  rewrite Hurl0 in Hurl. rewrite Hattrs0 in Hattrs.
  rewrite Huris, readItem_uris_skip in Heq; [|by rewrite Hurl|done].
  destruct rest as [|first tail].
  - cbn in Heq. split.
    + by rewrite readItem_url, Heq.
    + intros i Hstored. rewrite readItem_urlKey_lookup by done.
      by rewrite Heq, Hattrs.
  - intros Hne.
    cbn [readItem_uris] in Heq. rewrite Hurl in Heq. cbn [QString_isEmpty] in Heq.
    assert (Hset : QString_isEmpty (Entry_url (Entry_setUrl (readItem_uri first) entry0)) = false).
    { by apply QString_isEmpty_false. }
    split.
    + rewrite readItem_url, Heq. by rewrite readItem_uris_url_set.
    + intros k Hstored. rewrite readItem_urlKey_lookup by done. rewrite Heq.
      replace (Z.of_nat k + 1) with (1 + Z.of_nat k) by lia.
      destruct (tail !! k) as [urlObj|] eqn:Hk; cbn [fmap option_fmap option_map].
      * by apply readItem_uris_overflow.
      * rewrite readItem_uris_other; [|done|].
        { change (attrsOf (Entry_setUrl ?u ?e)) with (attrsOf e).
          by rewrite Hattrs. }
        intros k' Hk' Hkey%readItem_urlKey_inj.
        apply lookup_ge_None in Hk. lia.
Qed.

Lemma readItem_fieldKeys_form (fields : list QJsonValue) (entry : Entry) (rng : Rng)
    (i : nat) (field : QJsonValue) (key : string) :
  fields !! i = Some field →
  readItem_fieldKeys fields entry rng !! i = Some key →
  let name := QVariant_toString (value "name" (QVariant_toMap field)) in
  key = name ∨ ∃ u : QUuid, key = name +:+ "_" +:+ QString_mid (QUuid_toString u) 1 5.
Proof.
  revert entry rng i.
  induction fields as [|f fields IH]; intros entry rng i Hfield Hkey; [done|].
  destruct i as [|i]; cbn in Hfield, Hkey.
  - injection Hfield as ->. injection Hkey as <-.
    destruct (readItem_fieldName_form (QVariant_toMap field) entry rng)
      as [[_ ->]|[_ Hu]]; [by left|by right].
  - by eapply IH.
Qed.

Lemma renamed_ne (name suffix : string) : name +:+ "_" +:+ suffix ≠ name.
Proof.
  intros Heq. apply (f_equal String.length) in Heq. revert Heq.
  induction name as [|c name IH]; cbn; [discriminate|].
  intros Heq. injection Heq as Heq. by apply IH.
Qed.

Lemma EntryAttributes_hasKey_true (key : string) (a : EntryAttributes) :
  EntryAttributes_hasKey key a = true
  ↔ key ∈ EntryAttributes_DefaultAttributes ∨ is_Some (m_attributes a !! key).
Proof.
  unfold EntryAttributes_hasKey, EntryAttributes_isDefaultAttribute.
  by rewrite orb_true_iff, !bool_decide_eq_true.
Qed.

(** The rule of lines 121-129 for one field, on any entry and any state
    of the random source. *)
Lemma readItem_field_rule (entry : Entry) (rng : Rng) (field : QJsonValue) :
  let name := QVariant_toString (value "name" (QVariant_toMap field)) in
  let val := QVariant_toString (value "value" (QVariant_toMap field)) in
  let key :=
    name +:+ "_" +:+ QString_mid (QUuid_toString (supply rng (cursor rng))) 1 5 in
  let next := readItem_field (entry, rng) field in
  (EntryAttributes_hasKey name (Entry_attributes entry) = false →
     attrsOf next.1 = <[name := val]> (attrsOf entry)
     ∧ next.2 = rng)
  ∧ (EntryAttributes_hasKey name (Entry_attributes entry) = true →
       key ≠ name
       ∧ attrsOf next.1 = <[key := val]> (attrsOf entry)
       ∧ attrsOf next.1 !! name = attrsOf entry !! name
       ∧ next.2 = mkRng (supply rng) (S (cursor rng))).
Proof.
  cbn zeta. rewrite readItem_field_eq. unfold readItem_fieldName, createUuid.
  split; intros Hhas; rewrite Hhas; cbn [fst snd].
  - done.
  - rewrite QString_arg2_suffix.
    change (attrsOf (Entry_setAttribute ?k ?v ?p ?e)) with (<[k := v]> (attrsOf e)).
    split; [apply renamed_ne|]. split; [done|]. split; [|done].
    apply lookup_insert_ne, renamed_ne.
Qed.

(** C2, as the code has it. The attributes of the returned entry are what
    the loop over [fields] leaves, field after field. A field whose name
    is not taken (it is no default attribute and no attribute of the
    entry when the field is reached) is stored under its name and draws
    no UUID. A field whose name is taken is stored under the name
    followed by an underscore and the first five digits of the next UUID
    of the random source; that name differs from the field's, and the
    attribute under the field's own name stays as it is. The new name is
    not tested again: when the names so chosen are pairwise different and
    none of them is on the entry before the loop, the attributes the
    entry had are all kept, every field is an attribute of its own, and
    the entry has one attribute more per field. *)
Theorem readItem_fields_disambiguated (item : QJsonObject) (rng : Rng) :
  let fields := QVariant_toList (value "fields" item) in
  let entry0 := readItem_beforeFields item (supply rng (cursor rng)) in
  let before := attrsOf entry0 in
  let after := attrsOf (readItem item rng).1.1 in
  after = attrsOf (foldl readItem_field (entry0, mkRng (supply rng) (S (cursor rng)))
                     fields).1
  ∧ (∀ (entry : Entry) (rng0 : Rng) (field : QJsonValue),
       let name := QVariant_toString (value "name" (QVariant_toMap field)) in
       let val := QVariant_toString (value "value" (QVariant_toMap field)) in
       let key :=
         name +:+ "_" +:+ QString_mid (QUuid_toString (supply rng0 (cursor rng0))) 1 5 in
       let next := readItem_field (entry, rng0) field in
       (EntryAttributes_hasKey name (Entry_attributes entry) = true
          ↔ name ∈ EntryAttributes_DefaultAttributes ∨ is_Some (attrsOf entry !! name))
       ∧ (EntryAttributes_hasKey name (Entry_attributes entry) = false →
            attrsOf next.1 = <[name := val]> (attrsOf entry)
            ∧ next.2 = rng0)
       ∧ (EntryAttributes_hasKey name (Entry_attributes entry) = true →
            key ≠ name
            ∧ attrsOf next.1 = <[key := val]> (attrsOf entry)
            ∧ attrsOf next.1 !! name = attrsOf entry !! name
            ∧ next.2 = mkRng (supply rng0) (S (cursor rng0))))
  ∧ (NoDup (readItem_storedNames item rng) →
     (∀ key, key ∈ readItem_storedNames item rng → before !! key = None) →
     size after = (size before + length fields)%nat
     ∧ before ⊆ after
     ∧ ∀ (i : nat) (field : QJsonValue), fields !! i = Some field →
         let name := QVariant_toString (value "name" (QVariant_toMap field)) in
         ∃ key, readItem_storedNames item rng !! i = Some key
           ∧ after !! key
               = Some (QVariant_toString (value "value" (QVariant_toMap field)))
           ∧ (key = name
              ∨ ∃ u : QUuid,
                  key = name +:+ "_" +:+ QString_mid (QUuid_toString u) 1 5)).
Proof.
  cbn zeta. split; [|split].
  - by rewrite readItem_attributes.
  - intros entry rng0 field. split; [apply EntryAttributes_hasKey_true|].
    apply readItem_field_rule.
  - intros Hnodup Hnew. rewrite readItem_attributes.
    unfold readItem_storedNames, createUuid in *. cbn zeta in *.
    destruct (readItem_fields_fresh _ _ _ Hnodup Hnew) as (Hsize & Hsub & Hfields).
    split; [done|]. split; [done|].
    intros i field Hfield.
    destruct (Hfields i field Hfield) as (key & Hkey & Hval).
    exists key. split; [done|]. split; [done|].
    by eapply readItem_fieldKeys_form.
Qed.

(** A field whose name is taken leaves the attribute of that name as it
    is. *)
Lemma readItem_field_keeps_named (entry : Entry) (rng : Rng) (field : QJsonValue) :
  let name := QVariant_toString (value "name" (QVariant_toMap field)) in
  EntryAttributes_hasKey name (Entry_attributes entry) = true →
  attrsOf (readItem_field (entry, rng) field).1 !! name = attrsOf entry !! name.
Proof.
  cbn zeta. intros Hhas. rewrite readItem_field_eq. cbn.
  apply lookup_insert_ne.
  destruct (readItem_fieldName_form (QVariant_toMap field) entry rng)
    as [[Hno _]|[_ [u ->]]]; [congruence|].
  intros Heq. apply (f_equal String.length) in Heq.
  revert Heq. generalize (QVariant_toString (value "name" (QVariant_toMap field))).
  intros s. induction s as [|c s IH]; cbn; [discriminate|].
  intros Heq. injection Heq as Heq. by apply IH.
Qed.

(** *** The identity block *)

(** C3 at the identity of the source comment: the address attribute has
    an empty segment where the postal code 93103 should be, because line
    100 reads the key [postalcode] and the item has [postalCode]. *)
Theorem readItem_identity_postalCode_lost (rng : Rng) :
  attrsOf (readItem item_identity rng).1.1 !! "identity_address"
    = Some ("1 North Calle Cesar Chavez" +:+ LF +:+ "Santa Barbara, CA " +:+ LF
            +:+ "United States").
Proof. rewrite readItem_unfold. vm_compute. reflexivity. Qed.

(** *** The loop over [folders] *)

Lemma writeVault_folder_eq (folderMap : gmap string GroupPtr) (db : Database)
    (rng : Rng) (folder : QJsonValue) :
  writeVault_folder (folderMap, db, rng) folder =
    (<[writeVault_folderId folder := childGroup (length (db_children db))]> folderMap,
     mkDatabase (db_root db)
       (db_children db ++
        [mkGroup (supply rng (cursor rng))
           (QJsonValue_toString (value "name" (QJsonValue_toObject folder))) []]),
     mkRng (supply rng) (S (cursor rng))).
Proof. reflexivity. Qed.

Lemma writeVault_folders_spec (folders : list QJsonValue)
    (folderMap : gmap string GroupPtr) (db : Database) (rng : Rng) :
  let ids := writeVault_folderId <$> folders in
  let st := foldl writeVault_folder (folderMap, db, rng) folders in
  (∃ groups, st.1.2 = mkDatabase (db_root db) (db_children db ++ groups)
     ∧ length groups = length folders
     ∧ Forall (λ g, g_entries g = []) groups)
  ∧ st.2 = mkRng (supply rng) (cursor rng + length folders)
  ∧ (∀ id, id ∉ ids → st.1.1 !! id = folderMap !! id)
  ∧ (∀ (j : nat) id, ids !! j = Some id → id ∉ drop (S j) ids →
       st.1.1 !! id = Some (childGroup (length (db_children db) + j)))
  ∧ ((∀ id g, folderMap !! id = Some g → validPtr g db) →
     ∀ id g, st.1.1 !! id = Some g → validPtr g st.1.2).
Proof.
  revert folderMap db rng.
  induction folders as [|folder folders IH]; intros folderMap db rng; cbn zeta.
  { cbn. split; [|split; [|split; [|split]]]; try done.
    - exists []. split; [|done]. destruct db. cbn. by rewrite app_nil_r.
    - destruct rng. cbn. by rewrite Nat.add_0_r. }
  cbn [foldl fmap list_fmap]. rewrite writeVault_folder_eq.
  specialize (IH
    (<[writeVault_folderId folder := childGroup (length (db_children db))]> folderMap)
    (mkDatabase (db_root db)
       (db_children db ++
        [mkGroup (supply rng (cursor rng))
           (QJsonValue_toString (value "name" (QJsonValue_toObject folder))) []]))
    (mkRng (supply rng) (S (cursor rng)))).
  cbn zeta in IH. destruct IH as ((groups & Hdb & Hlen & Hempty) & Hrng & Hout & Hin & Hvalid).
  cbn [db_root db_children supply cursor] in *.
  rewrite length_app in Hin. cbn [length] in Hin.
  split; [|split; [|split; [|split]]].
  - eexists (_ :: groups). split; [|split].
    + rewrite Hdb. by rewrite <- app_assoc.
    + cbn. by rewrite Hlen.
    + by constructor.
  - rewrite Hrng. f_equal. cbn. lia.
  - intros id Hid. apply not_elem_of_cons in Hid as [Hne Hid].
    rewrite Hout by done. by apply lookup_insert_ne.
  - intros [|j] id Hj Hlast.
    + cbn in Hj, Hlast. injection Hj as <-.
      rewrite Hout by done. rewrite lookup_insert_eq. do 2 f_equal. lia.
    + cbn in Hj, Hlast. rewrite (Hin j id Hj Hlast). do 2 f_equal. lia.
  - intros Hold id g Hg. apply (Hvalid) with id; [|done].
    intros id' g' Hg'. apply lookup_insert_Some in Hg' as [[_ <-]|[_ Hg']].
    + cbn. rewrite length_app. cbn. lia.
    + specialize (Hold _ _ Hg'). destruct g'; [done|].
      cbn in *. rewrite length_app. lia.
Qed.

Lemma last_occurrence (ids : list string) (id : string) :
  id ∈ ids → ∃ j : nat, ids !! j = Some id ∧ id ∉ drop (S j) ids.
Proof.
  induction ids as [|x ids IH]; intros Hin; [by apply elem_of_nil in Hin|].
  destruct (decide (id ∈ ids)) as [Hrest|Hrest].
  - destruct (IH Hrest) as (j & Hj & Hlast). by exists (S j).
  - apply elem_of_cons in Hin as [->|Hin]; [|done].
    exists 0%nat. by split.
Qed.

(** *** The loop over [items] *)

Lemma writeVault_item_eq (folderMap : gmap string GroupPtr) (db : Database)
    (rng : Rng) (item : QJsonValue) :
  writeVault_item folderMap (db, rng) item =
    let r := readItem (QJsonValue_toObject item) rng in
    (Entry_setGroup r.1.1 (default rootGroup (folderMap !! r.1.2)) db, r.2).
Proof. unfold writeVault_item. by destruct (readItem _ _) as [[? ?] ?]. Qed.

Lemma Entry_setGroup_children (entry : Entry) (g : GroupPtr) (db : Database) :
  length (db_children (Entry_setGroup entry g db)) = length (db_children db).
Proof. destruct g; cbn; [done|]. by rewrite length_alter. Qed.

Lemma Entry_setGroup_entriesOf (entry : Entry) (g ptr : GroupPtr) (db : Database) :
  validPtr ptr db →
  Database_entriesOf ptr (Entry_setGroup entry g db)
    = (Database_entriesOf ptr db ++ if decide (g = ptr) then [entry] else [])%list.
Proof.
  intros Hvalid. destruct g as [|i], ptr as [|j]; cbn in *.
  - done.
  - by rewrite app_nil_r.
  - by rewrite app_nil_r.
  - destruct (decide (i = j)) as [->|Hne].
    + rewrite decide_True by done. rewrite list_lookup_alter_eq.
      apply lookup_lt_is_Some_2 in Hvalid as [grp ->]. done.
    + rewrite decide_False by congruence.
      rewrite list_lookup_alter_ne by done. by rewrite app_nil_r.
Qed.

Lemma writeVault_items_entriesOf (items : list QJsonValue)
    (folderMap : gmap string GroupPtr) (db : Database) (rng : Rng) (ptr : GroupPtr) :
  validPtr ptr db →
  Database_entriesOf ptr (foldl (writeVault_item folderMap) (db, rng) items).1
    = (Database_entriesOf ptr db ++
       (filter (λ p, default rootGroup (folderMap !! p.2) = ptr)
          (writeVault_readItems items rng)).*1)%list.
Proof.
  revert db rng. induction items as [|item items IH]; intros db rng Hvalid.
  { cbn. by rewrite app_nil_r. }
  cbn [foldl writeVault_readItems]. rewrite writeVault_item_eq. cbn zeta.
  destruct (readItem (QJsonValue_toObject item) rng) as [[entry folderId] rng'].
  cbn [fst snd]. rewrite IH.
  - rewrite Entry_setGroup_entriesOf by done. rewrite <- app_assoc. f_equal.
    rewrite filter_cons. cbn [snd].
    destruct (decide (default rootGroup (folderMap !! folderId) = ptr)); done.
  - destruct ptr; [done|]. cbn. by rewrite Entry_setGroup_children.
Qed.

Lemma alter_addEntry_count (entry : Entry) (groups : list Group) (i : nat) :
  (i < length groups)%nat →
  length (concat (g_entries <$> alter (Group_addEntry entry) i groups))
    = S (length (concat (g_entries <$> groups))).
Proof.
  revert i. induction groups as [|g groups IH]; intros i Hi; cbn in Hi; [lia|].
  destruct i as [|i]; cbn.
  - rewrite !length_app. cbn. lia.
  - rewrite !length_app. rewrite IH by lia. lia.
Qed.

Lemma Entry_setGroup_count (entry : Entry) (g : GroupPtr) (db : Database) :
  validPtr g db →
  length (Database_entries (Entry_setGroup entry g db))
    = S (length (Database_entries db)).
Proof.
  intros Hvalid. unfold Database_entries. destruct g as [|i]; cbn in *.
  - rewrite !length_app. cbn. lia.
  - rewrite !length_app. rewrite alter_addEntry_count by done. lia.
Qed.

Lemma writeVault_items_count (items : list QJsonValue)
    (folderMap : gmap string GroupPtr) (db : Database) (rng : Rng) :
  (∀ id g, folderMap !! id = Some g → validPtr g db) →
  let result := (foldl (writeVault_item folderMap) (db, rng) items).1 in
  length (db_children result) = length (db_children db)
  ∧ length (Database_entries result)
      = (length (Database_entries db) + length items)%nat.
Proof.
  revert db rng. induction items as [|item items IH]; intros db rng Hvalid; cbn zeta.
  { cbn. lia. }
  cbn [foldl]. rewrite writeVault_item_eq. cbn zeta.
  destruct (readItem (QJsonValue_toObject item) rng) as [[entry folderId] rng'].
  cbn [fst snd].
  assert (Hptr : validPtr (default rootGroup (folderMap !! folderId)) db).
  { destruct (folderMap !! folderId) eqn:Hg; [by eapply Hvalid|done]. }
  destruct (IH (Entry_setGroup entry (default rootGroup (folderMap !! folderId)) db) rng')
    as [Hchildren Hcount].
  { intros id g Hg. specialize (Hvalid id g Hg). destruct g; [done|].
    cbn in *. by rewrite Entry_setGroup_children. }
  rewrite Hchildren, Hcount, Entry_setGroup_children, Entry_setGroup_count by done.
  cbn. lia.
Qed.

Lemma writeVaultToDatabase_eq (vault : QJsonObject) (db : Database) (rng : Rng) :
  contains "folders" vault = true →
  contains "items" vault = true →
  writeVaultToDatabase vault db rng =
    let st := foldl writeVault_folder (∅, db, rng)
                (QJsonValue_toArray (value "folders" vault)) in
    foldl (writeVault_item st.1.1) (st.1.2, st.2)
      (QJsonValue_toArray (value "items" vault)).
Proof.
  intros Hfolders Hitems. unfold writeVaultToDatabase.
  rewrite Hfolders, Hitems. cbn [negb orb].
  by destruct (foldl writeVault_folder _ _) as [[? ?] ?].
Qed.

(** C6: on a vault that has both keys, the loop over [folders] adds one
    child group of the root per element of [folders] (also when ids
    repeat), and the loop over [items] adds one entry per element of
    [items] (whatever the element is). *)
Theorem writeVaultToDatabase_counts (vault : QJsonObject) (db : Database) (rng : Rng) :
  contains "folders" vault = true →
  contains "items" vault = true →
  let result := (writeVaultToDatabase vault db rng).1 in
  length (db_children result)
    = (length (db_children db)
       + length (QJsonValue_toArray (value "folders" vault)))%nat
  ∧ length (Database_entries result)
    = (length (Database_entries db)
       + length (QJsonValue_toArray (value "items" vault)))%nat.
Proof.
  intros Hfolders Hitems. cbn zeta.
  rewrite writeVaultToDatabase_eq by done. cbn zeta.
  destruct (writeVault_folders_spec (QJsonValue_toArray (value "folders" vault)) ∅ db rng)
    as ((groups & Hdb & Hlen & Hempty) & _ & _ & _ & Hvalid).
  destruct (writeVault_items_count (QJsonValue_toArray (value "items" vault))
              (foldl writeVault_folder (∅, db, rng)
                 (QJsonValue_toArray (value "folders" vault))).1.1
              (foldl writeVault_folder (∅, db, rng)
                 (QJsonValue_toArray (value "folders" vault))).1.2
              (foldl writeVault_folder (∅, db, rng)
                 (QJsonValue_toArray (value "folders" vault))).2)
    as [Hchildren Hcount].
  { apply Hvalid. intros id g Hg. by rewrite lookup_empty in Hg. }
  rewrite Hchildren, Hcount, Hdb. cbn [db_children].
  rewrite length_app, Hlen. split; [done|]. f_equal.
  unfold Database_entries. cbn [db_root db_children].
  rewrite !length_app, fmap_app, concat_app, length_app.
  assert (Hnone : concat (g_entries <$> groups) = []).
  { clear -Hempty. induction Hempty as [|g groups Hg _ IH]; [done|].
    cbn. by rewrite Hg, IH. }
  rewrite Hnone. cbn. lia.
Qed.

Lemma filter_none {A} (P : A → Prop) `{∀ x, Decision (P x)} (l : list A) :
  (∀ x, ¬ P x) → filter P l = [].
Proof.
  intros HP. induction l as [|x l IH]; [done|].
  rewrite filter_cons. destruct (decide (P x)) as [Hx|_]; [by apply HP in Hx|done].
Qed.

(** The group that the folder map gives for a folder id: the root when
    no folder has the id, else the group of the last folder that has
    it. *)
Lemma writeVault_folders_resolve (folders : list QJsonValue) (db : Database)
    (rng : Rng) (fid : string) :
  let ids := writeVault_folderId <$> folders in
  let folderMap := (foldl writeVault_folder (∅, db, rng) folders).1.1 in
  ((fid ∉ ids) ∧ default rootGroup (folderMap !! fid) = rootGroup)
  ∨ (∃ j : nat, ids !! j = Some fid ∧ (fid ∉ drop (S j) ids)
       ∧ default rootGroup (folderMap !! fid)
           = childGroup (length (db_children db) + j)).
Proof.
  cbn zeta.
  destruct (writeVault_folders_spec folders ∅ db rng) as (_ & _ & Hout & Hin & _).
  destruct (decide (fid ∈ writeVault_folderId <$> folders)) as [Hid|Hid].
  - right. destruct (last_occurrence _ _ Hid) as (j & Hj & Hlast).
    exists j. split; [done|]. split; [done|]. by rewrite (Hin j fid Hj Hlast).
  - left. split; [done|]. by rewrite Hout, lookup_empty.
Qed.

(** C7, as the code has it: the entry of an item goes to the root group
    exactly when the folder id text of the item is the id text of no
    folder, and else to the group of the last folder with that id text.
    (An absent or non-text id reads as the empty text, for items and for
    folders.) Each group receives its entries in the order of [items]. *)
Theorem writeVaultToDatabase_groups (vault : QJsonObject) (db : Database) (rng : Rng) :
  contains "folders" vault = true →
  contains "items" vault = true →
  let folders := QJsonValue_toArray (value "folders" vault) in
  let ids := writeVault_folderId <$> folders in
  let produced :=
    writeVault_readItems (QJsonValue_toArray (value "items" vault))
      (mkRng (supply rng) (cursor rng + length folders)) in
  let result := (writeVaultToDatabase vault db rng).1 in
  Database_entriesOf rootGroup result
    = (Database_entriesOf rootGroup db ++ (filter (λ p, p.2 ∉ ids) produced).*1)%list
  ∧ ∀ (j : nat) (fid : string), ids !! j = Some fid →
      Database_entriesOf (childGroup (length (db_children db) + j)) result
        = if decide (fid ∈ drop (S j) ids) then []
          else (filter (λ p, p.2 = fid) produced).*1.
Proof.
  intros Hfolders Hitems. cbn zeta.
  rewrite writeVaultToDatabase_eq by done. cbn zeta.
  set (folders := QJsonValue_toArray (value "folders" vault)).
  set (items := QJsonValue_toArray (value "items" vault)).
  pose proof (writeVault_folders_resolve folders db rng) as Hresolve. cbn zeta in Hresolve.
  destruct (writeVault_folders_spec folders ∅ db rng)
    as ((groups & Hdb & Hlen & Hempty) & Hrng & _ & _ & _).
  set (st := foldl writeVault_folder (∅, db, rng) folders) in *.
  split.
  - rewrite writeVault_items_entriesOf by done.
    rewrite Hrng, Hdb. cbn [Database_entriesOf db_root].
    f_equal. f_equal. apply list_filter_iff. intros [entry fid]. cbn [snd].
    destruct (Hresolve fid) as [[Hid ->]|(j & Hj & Hlast & ->)].
    + done.
    + split; [done|]. intros Hid. exfalso. apply Hid.
      by eapply list_elem_of_lookup_2.
  - intros j fid Hj.
    assert (Hjlen : (j < length groups)%nat).
    { rewrite Hlen. apply lookup_lt_Some in Hj. by rewrite length_fmap in Hj. }
    rewrite writeVault_items_entriesOf.
    2:{ rewrite Hdb. cbn. rewrite length_app. lia. }
    rewrite Hrng, Hdb. cbn [Database_entriesOf db_children].
    rewrite lookup_app_r by lia.
    replace (length (db_children db) + j - length (db_children db))%nat with j by lia.
    apply lookup_lt_is_Some_2 in Hjlen as [grp Hgrp]. rewrite Hgrp. cbn [from_option].
    rewrite (proj1 (Forall_lookup _ _) Hempty j grp Hgrp). cbn [app].
    assert (Hptr : ∀ p : Entry * string,
      default rootGroup (st.1.1 !! p.2) = childGroup (length (db_children db) + j)
      ↔ p.2 = fid ∧ (fid ∉ drop (S j) (writeVault_folderId <$> folders))).
    { intros [entry fid']. cbn [snd].
      destruct (Hresolve fid') as [[Hid ->]|(j' & Hj' & Hlast & ->)].
      - split; [done|]. intros [-> _]. exfalso. apply Hid.
        by eapply list_elem_of_lookup_2.
      - split.
        + intros Heq. assert (j' = j) as -> by (injection Heq; lia).
          rewrite Hj in Hj'. by injection Hj' as ->.
        + intros [-> Hlast']. f_equal. f_equal.
          destruct (decide (j' = j)) as [|Hne]; [done|]. exfalso.
          destruct (decide (j' < j)%nat).
          * apply Hlast. apply list_elem_of_lookup. exists (j - S j')%nat.
            rewrite lookup_drop. rewrite <- Hj. f_equal. lia.
          * apply Hlast'. apply list_elem_of_lookup. exists (j' - S j)%nat.
            rewrite lookup_drop. rewrite <- Hj'. f_equal. lia. }
    destruct (decide (fid ∈ drop (S j) (writeVault_folderId <$> folders))) as [Hlater|Hlater].
    + rewrite filter_none; [done|]. intros p Hp. apply Hptr in Hp as [_ Hp]. done.
    + f_equal. apply list_filter_iff. intros p. split.
      * by intros [? _]%Hptr.
      * intros Hp. by apply Hptr.
Qed.

(** *** The early exit and the converter *)

Lemma writeVaultToDatabase_early (vault : QJsonObject) (db : Database) (rng : Rng) :
  contains "folders" vault = false ∨ contains "items" vault = false →
  writeVaultToDatabase vault db rng = (db, rng).
Proof.
  intros [Hno|Hno]; unfold writeVaultToDatabase; rewrite Hno; [done|].
  by destruct (contains "folders" vault).
Qed.

(** C4: a vault without the key [folders] or without the key [items]
    makes [writeVaultToDatabase] return at once, with the database as it
    was; the converter then returns the new database, whose root has no
    entry and no child group, and the reader has no error. *)
Theorem convert_vault_missing_key (fs : string → FileState) (path : string)
    (reader : BitwardenReader) (rng : Rng) (content : string) :
  fs path = Opens content →
  contains "folders" (QJsonDocument_object content) = false
    ∨ contains "items" (QJsonDocument_object content) = false →
  (∀ db rng', writeVaultToDatabase (QJsonDocument_object content) db rng' = (db, rng'))
  ∧ ∃ db reader' rng',
      convert fs path reader rng = (Some db, reader', rng')
      ∧ db_children db = []
      ∧ Database_entries db = []
      ∧ hasError reader' = false.
Proof.
  intros Hfile Hmissing. split.
  - intros db rng'. by apply writeVaultToDatabase_early.
  - unfold convert. rewrite Hfile. unfold Database_create, createUuid. cbn zeta.
    rewrite writeVaultToDatabase_early by done.
    eexists _, _, _. split; [reflexivity|done].
Qed.

(** C5: the converter returns a database or sets an error, never both. A
    path without a file gives the error "File does not exist." and no
    database; a file that cannot be opened gives "Cannot open file: "
    followed by the reason, and no database; a file that opens gives a
    database and an empty error. *)
Theorem convert_database_or_error (fs : string → FileState) (path : string)
    (reader : BitwardenReader) (rng : Rng) :
  let result := (convert fs path reader rng).1.1 in
  let reader' := (convert fs path reader rng).1.2 in
  match fs path with
  | NoSuchFile =>
      result = None ∧ errorString reader' = "File does not exist."
  | CannotOpen reason =>
      result = None ∧ errorString reader' = "Cannot open file: " +:+ reason
  | Opens _ =>
      is_Some result ∧ errorString reader' = ""
  end
  ∧ (is_Some result ↔ hasError reader' = false).
Proof.
  cbn zeta. unfold convert. destruct (fs path) as [|reason|content].
  - cbn. split; [done|]. split; [by intros [? ?]|done].
  - cbn [fst snd errorString m_error]. unfold QObject_tr.
    change (QString_arg "Cannot open file: %1" reason)
      with ("Cannot open file: " +:+ (reason +:+ "")).
    rewrite string_app_nil_r. split; [done|].
    split; [by intros [? ?]|done].
  - unfold Database_create, createUuid. cbn zeta.
    destruct (writeVaultToDatabase _ _ _) as [db rng'].
    cbn. split; [split; [by eexists|done]|]. split; [done|by eexists].
Qed.

(** *** What the later stages leave alone *)

Lemma readItem_uris_core (uris : list QJsonValue) (i : Z) (entry : Entry) :
  Entry_core (readItem_uris uris i entry) = Entry_core entry.
Proof.
  revert i entry. induction uris as [|urlObj uris IH]; intros i entry; [done|].
  cbn [readItem_uris]. destruct (QString_isEmpty _); by rewrite IH.
Qed.

Lemma readItem_identity_core (item : QJsonObject) (entry : Entry) :
  Entry_core (readItem_identity item entry) = Entry_core entry.
Proof. unfold readItem_identity. by destruct (contains _ _). Qed.

Lemma readItem_fields_core (fields : list QJsonValue) (entry : Entry) (rng : Rng) :
  Entry_core (readItem_fields fields entry rng).1 = Entry_core entry.
Proof.
  revert entry rng. induction fields as [|field fields IH]; intros entry rng; [done|].
  by rewrite readItem_fields_cons, IH, readItem_field_eq.
Qed.

Lemma readItem_core (item : QJsonObject) (rng : Rng) :
  Entry_core (readItem item rng).1.1
    = Entry_core (readItem_login item (readItem_basic item (supply rng (cursor rng)))).
Proof.
  rewrite readItem_unfold. cbn zeta. cbn [fst].
  change (Entry_core (readItem_finish item ?e)) with (Entry_core e).
  rewrite readItem_fields_core. unfold readItem_beforeFields.
  by rewrite readItem_identity_core.
Qed.

(** X1: the entry that [readItem] returns has the first UUID of the
    random source as identity, the texts of [name] and [notes] as title
    and notes, and the texts of [login.username] and [login.password] as
    username and password; without a [login] member both are empty. No
    later block of [readItem] changes any of them. *)
Theorem readItem_basic_fields (item : QJsonObject) (rng : Rng) :
  let d := m_data (readItem item rng).1.1 in
  let loginMap := QVariant_toMap (value "login" item) in
  m_uuid d = supply rng (cursor rng)
  ∧ m_title d = QVariant_toString (value "name" item)
  ∧ m_notes d = QVariant_toString (value "notes" item)
  ∧ m_username d
      = (if contains "login" item
         then QVariant_toString (value "username" loginMap) else "")
  ∧ m_password d
      = (if contains "login" item
         then QVariant_toString (value "password" loginMap) else "").
Proof.
  cbn zeta. pose proof (readItem_core item rng) as Hcore.
  unfold readItem_login in Hcore.
  destruct (contains "login" item).
  - rewrite readItem_uris_core in Hcore.
    unfold readItem_basic in Hcore.
    destruct (contains "totp" _), (QVariant_toBool _);
      injection Hcore as -> -> -> -> -> _ _; done.
  - unfold readItem_basic in Hcore.
    destruct (QVariant_toBool _); injection Hcore as -> -> -> -> -> _ _; done.
Qed.

(** X2: the entry has the tag "Favorite", and no other tag, exactly when
    the [favorite] member of the item converts to true; an item without
    that member has no tag. *)
Theorem readItem_favorite_tag (item : QJsonObject) (rng : Rng) :
  m_tags (m_data (readItem item rng).1.1)
    = if QVariant_toBool (value "favorite" item) then ["Favorite"] else [].
Proof.
  pose proof (readItem_core item rng) as Hcore.
  unfold readItem_login in Hcore.
  destruct (contains "login" item).
  - rewrite readItem_uris_core in Hcore.
    unfold readItem_basic in Hcore.
    destruct (contains "totp" _), (QVariant_toBool _);
      injection Hcore as _ _ _ _ _ -> _; done.
  - unfold readItem_basic in Hcore.
    destruct (QVariant_toBool _); injection Hcore as _ _ _ _ _ -> _; done.
Qed.

(** *** The random source *)

Lemma readItem_fields_rng (fields : list QJsonValue) (entry : Entry) (rng : Rng) :
  let rng' := (readItem_fields fields entry rng).2 in
  supply rng' = supply rng
  ∧ (cursor rng ≤ cursor rng' ≤ cursor rng + length fields)%nat.
Proof.
  revert entry rng. induction fields as [|field fields IH]; intros entry rng; cbn zeta.
  { cbn. split; [done|lia]. }
  rewrite readItem_fields_cons.
  destruct (IH (readItem_field (entry, rng) field).1 (readItem_field (entry, rng) field).2)
    as [Hsupply Hcursor].
  rewrite Hsupply. clear IH Hsupply.
  rewrite readItem_field_eq in *. cbn [fst snd] in *.
  unfold readItem_fieldName in *.
  destruct (EntryAttributes_hasKey _ _); cbn [createUuid fst snd supply cursor length] in *;
    (split; [done|lia]).
Qed.

(** X4: [readItem] takes one UUID for the entry and at most one more per
    custom field (one for each field that is renamed); it reads the
    random source in order and draws nothing else. *)
Theorem readItem_uuids_drawn (item : QJsonObject) (rng : Rng) :
  let rng' := (readItem item rng).2 in
  supply rng' = supply rng
  ∧ (cursor rng < cursor rng'
       ≤ cursor rng + 1 + length (QVariant_toList (value "fields" item)))%nat.
Proof.
  cbn zeta. rewrite readItem_unfold. cbn zeta. cbn [snd].
  destruct (readItem_fields_rng (QVariant_toList (value "fields" item))
              (readItem_beforeFields item (supply rng (cursor rng)))
              (mkRng (supply rng) (S (cursor rng)))) as [Hsupply Hcursor].
  cbn [supply cursor] in *. split; [done|lia].
Qed.

(** *** The attributes through the loop over [fields] *)

Lemma gset_size_union_le (X Y : gset string) :
  (size (X ∪ Y) ≤ size X + size Y)%nat.
Proof.
  rewrite size_union_alt.
  assert (size (Y ∖ X) ≤ size Y)%nat; [|lia].
  apply subseteq_size, subseteq_difference_l. reflexivity.
Qed.

Lemma gset_size_list_to_set (l : list string) :
  (size (list_to_set l : gset string) ≤ length l)%nat.
Proof.
  induction l as [|x l IH]; cbn [list_to_set length].
  - by rewrite size_empty.
  - etrans; [apply gset_size_union_le|]. rewrite size_singleton. lia.
Qed.

Lemma readItem_fieldKeys_length (fields : list QJsonValue) (entry : Entry) (rng : Rng) :
  length (readItem_fieldKeys fields entry rng) = length fields.
Proof.
  revert entry rng. induction fields as [|field fields IH]; intros entry rng; [done|].
  cbn [readItem_fieldKeys length]. by rewrite IH.
Qed.

Lemma readItem_fields_dom (fields : list QJsonValue) (entry : Entry) (rng : Rng) :
  let result := (readItem_fields fields entry rng).1 in
  dom (attrsOf result)
    = dom (attrsOf entry) ∪ list_to_set (readItem_fieldKeys fields entry rng).
Proof.
  revert entry rng. induction fields as [|field fields IH]; intros entry rng; cbn zeta.
  { cbn. by rewrite (right_id_L ∅ (∪)). }
  rewrite readItem_fields_cons, IH. cbn [readItem_fieldKeys list_to_set].
  rewrite readItem_field_eq at 1. cbn [fst].
  change (attrsOf (Entry_setAttribute ?k ?v ?p ?e)) with (<[k := v]> (attrsOf e)).
  rewrite dom_insert_L.
  rewrite (comm_L (∪) {[_]} (dom _)). by rewrite <- (assoc_L (∪)).
Qed.

(** X5: the loop over [fields] never removes an attribute name: every
    name on the entry before the loop is on the returned entry, the names
    added are the names the fields are stored under, and the entry gains
    at most one attribute per field. *)
Theorem readItem_fields_names_kept (item : QJsonObject) (rng : Rng) :
  let fields := QVariant_toList (value "fields" item) in
  let before := attrsOf (readItem_beforeFields item (supply rng (cursor rng))) in
  let after := attrsOf (readItem item rng).1.1 in
  dom after = dom before ∪ list_to_set (readItem_storedNames item rng)
  ∧ (size before ≤ size after ≤ size before + length fields)%nat.
Proof.
  cbn zeta. rewrite readItem_attributes.
  unfold readItem_storedNames, createUuid. cbn zeta.
  set (fields := QVariant_toList (value "fields" item)).
  set (entry := readItem_beforeFields item (supply rng (cursor rng))).
  set (rng1 := mkRng (supply rng) (S (cursor rng))).
  pose proof (readItem_fields_dom fields entry rng1) as Hdom. cbn zeta in Hdom.
  split; [exact Hdom|].
  rewrite <- !size_dom, Hdom. split.
  - apply subseteq_size, union_subseteq_l.
  - etrans; [apply gset_size_union_le|].
    pose proof (gset_size_list_to_set (readItem_fieldKeys fields entry rng1)) as Hlen.
    rewrite readItem_fieldKeys_length in Hlen. lia.
Qed.

(** *** The protected flag *)

Lemma Entry_setAttribute_protected_other (k key val : string) (p : bool) (e : Entry) :
  key ≠ k → key ∈ protectedOf (Entry_setAttribute k val p e) ↔ key ∈ protectedOf e.
Proof.
  intros Hne. cbn. destruct p.
  - rewrite elem_of_union, elem_of_singleton. tauto.
  - rewrite elem_of_difference, elem_of_singleton. tauto.
Qed.

Lemma Entry_setAttribute_protected_eq (k val : string) (p : bool) (e : Entry) :
  k ∈ protectedOf (Entry_setAttribute k val p e) ↔ p = true.
Proof.
  cbn. destruct p.
  - rewrite elem_of_union, elem_of_singleton. tauto.
  - rewrite elem_of_difference, elem_of_singleton. split; [tauto|discriminate].
Qed.

Lemma readItem_fields_other_protected (fields : list QJsonValue) (entry : Entry)
    (rng : Rng) (key : string) :
  key ∉ readItem_fieldKeys fields entry rng →
  key ∈ protectedOf (readItem_fields fields entry rng).1 ↔ key ∈ protectedOf entry.
Proof.
  revert entry rng. induction fields as [|field fields IH]; intros entry rng Hkey; [done|].
  cbn [readItem_fieldKeys] in Hkey. apply not_elem_of_cons in Hkey as [Hne Hkey].
  rewrite readItem_fields_cons, IH by done.
  rewrite readItem_field_eq. cbn [fst]. by apply Entry_setAttribute_protected_other.
Qed.

Lemma readItem_uris_unprotected (uris : list QJsonValue) (i : Z) (entry : Entry)
    (key : string) :
  key ∉ protectedOf entry → key ∉ protectedOf (readItem_uris uris i entry).
Proof.
  revert i entry. induction uris as [|urlObj uris IH]; intros i entry Hkey; [done|].
  cbn [readItem_uris]. destruct (QString_isEmpty _); apply IH; [done|].
  cbn. rewrite elem_of_difference. tauto.
Qed.

Lemma readItem_beforeFields_unprotected (item : QJsonObject) (u : QUuid) (key : string) :
  key ∉ protectedOf (readItem_beforeFields item u).
Proof.
  unfold readItem_beforeFields.
  assert (Hlogin : key ∉ protectedOf (readItem_login item (readItem_basic item u))).
  { unfold readItem_login.
    assert (Hbasic : key ∉ protectedOf (readItem_basic item u)).
    { unfold readItem_basic. destruct (QVariant_toBool _); cbn; apply not_elem_of_empty. }
    destruct (contains "login" item); [|done].
    apply readItem_uris_unprotected. by destruct (contains "totp" _). }
  unfold readItem_identity. destruct (contains "identity" item); [|done].
  cbn. rewrite elem_of_difference. tauto.
Qed.

Lemma readItem_protected (item : QJsonObject) (rng : Rng) :
  protectedOf (readItem item rng).1.1
    = protectedOf (readItem_fields (QVariant_toList (value "fields" item))
                     (readItem_beforeFields item (supply rng (cursor rng)))
                     (mkRng (supply rng) (S (cursor rng)))).1.
Proof. by rewrite readItem_unfold. Qed.

(** The last field stored under a name decides the attribute. *)
Lemma readItem_fields_last (fields : list QJsonValue) (entry : Entry) (rng : Rng)
    (i : nat) (field : QJsonValue) (key : string) :
  fields !! i = Some field →
  readItem_fieldKeys fields entry rng !! i = Some key →
  key ∉ drop (S i) (readItem_fieldKeys fields entry rng) →
  let result := (readItem_fields fields entry rng).1 in
  attrsOf result !! key
    = Some (QVariant_toString (value "value" (QVariant_toMap field)))
  ∧ (key ∈ protectedOf result
     ↔ QVariant_toInt (value "type" (QVariant_toMap field)) = 1).
Proof.
  revert entry rng i.
  induction fields as [|f fields IH]; intros entry rng i Hfield Hkey Hlast; [done|].
  cbn zeta. rewrite readItem_fields_cons.
  destruct i as [|i]; cbn in Hfield, Hkey, Hlast.
  - injection Hfield as ->. injection Hkey as <-.
    rewrite readItem_fields_other by done.
    rewrite readItem_fields_other_protected by done.
    rewrite readItem_field_eq. cbn [fst]. split.
    + cbn. apply lookup_insert_eq.
    + rewrite Entry_setAttribute_protected_eq. apply Z.eqb_eq.
  - exact (IH _ _ i Hfield Hkey Hlast).
Qed.

(** X6: when several custom fields are stored under one name, the last of
    them decides: a field whose stored name is not used by a later field
    is the attribute of that name on the returned entry, with the field's
    value text, and the attribute is protected exactly when the field's
    [type] converts to the integer 1. *)
Theorem readItem_fields_last_wins (item : QJsonObject) (rng : Rng)
    (i : nat) (field : QJsonValue) (key : string) :
  QVariant_toList (value "fields" item) !! i = Some field →
  readItem_storedNames item rng !! i = Some key →
  key ∉ drop (S i) (readItem_storedNames item rng) →
  let entry := (readItem item rng).1.1 in
  attrsOf entry !! key
    = Some (QVariant_toString (value "value" (QVariant_toMap field)))
  ∧ (key ∈ protectedOf entry
     ↔ QVariant_toInt (value "type" (QVariant_toMap field)) = 1).
Proof.
  intros Hfield Hkey Hlast. cbn zeta.
  rewrite readItem_attributes, readItem_protected.
  unfold readItem_storedNames, createUuid in Hkey, Hlast. cbn zeta in Hkey, Hlast.
  exact (readItem_fields_last _ _ _ i field key Hfield Hkey Hlast).
Qed.

(** *** Attributes that no custom field can replace *)

Lemma string_app_cons (c : ascii) (s t : string) :
  String c s +:+ t = String c (s +:+ t).
Proof. reflexivity. Qed.

Lemma string_length_app (s t : string) :
  String.length (s +:+ t) = (String.length s + String.length t)%nat.
Proof.
  induction s as [|c s IH]; [done|].
  rewrite string_app_cons. cbn [String.length]. by rewrite IH.
Qed.

Lemma string_get_app_r (s t : string) (n : nat) :
  String.get (String.length s + n) (s +:+ t) = String.get n t.
Proof.
  induction s as [|c s IH]; [done|].
  rewrite string_app_cons. cbn [String.length Nat.add String.get]. exact IH.
Qed.

Lemma string_get_app_l (s t : string) (n : nat) :
  (n < String.length s)%nat → String.get n (s +:+ t) = String.get n s.
Proof.
  revert n. induction s as [|c s IH]; intros n Hn; cbn in Hn; [lia|].
  rewrite string_app_cons. destruct n as [|n]; [done|].
  cbn [String.get]. apply IH. lia.
Qed.

(** The five characters that a renamed field gets after the underscore. *)
Lemma QUuid_suffix (u : QUuid) :
  QString_mid (QUuid_toString u) 1 5
    = String (QUuid_nibble u 31) (String (QUuid_nibble u 30)
        (String (QUuid_nibble u 29) (String (QUuid_nibble u 28)
           (String (QUuid_nibble u 27) "")))).
Proof. reflexivity. Qed.

Lemma QUuid_nibble_hex (u : QUuid) (k : N) (c : ascii) :
  QUuid_nibble u k = c →
  (48 ≤ N_of_ascii c ≤ 57)%N ∨ (97 ≤ N_of_ascii c ≤ 102)%N.
Proof.
  intros <-. unfold QUuid_nibble, QUuid_hexDigit.
  set (d := N.land (N.shiftr u (4 * k)) 15).
  assert (Hd : (d < 16)%N).
  { unfold d. change 15%N with (N.ones 4). rewrite N.land_ones.
    apply N.mod_lt. discriminate. }
  destruct (N.ltb_spec d 10).
  - left. rewrite N_ascii_embedding by lia. lia.
  - right. rewrite N_ascii_embedding by lia. lia.
Qed.

(** A renamed name has an underscore at the sixth place from its end and
    a hexadecimal digit after it. *)
Lemma renamed_shape (name : string) (u : QUuid) (key : string) :
  key = name +:+ "_" +:+ QString_mid (QUuid_toString u) 1 5 →
  String.length key = (String.length name + 6)%nat
  ∧ String.get (String.length name) key = Some "_"%char
  ∧ ∃ c, String.get (S (String.length name)) key = Some c
      ∧ ((48 ≤ N_of_ascii c ≤ 57)%N ∨ (97 ≤ N_of_ascii c ≤ 102)%N).
Proof.
  intros ->. rewrite QUuid_suffix. split; [|split].
  - by rewrite string_length_app.
  - rewrite <- (Nat.add_0_r (String.length name)) at 1.
    by rewrite string_get_app_r.
  - exists (QUuid_nibble u 31). split.
    + replace (S (String.length name)) with (String.length name + 1)%nat by lia.
      by rewrite string_get_app_r.
    + by eapply QUuid_nibble_hex.
Qed.

(** Every name under which [readItem] stores an attribute (lines 69, 102
    and 129) is the name of a custom field, never of a default
    attribute. *)
Lemma readItem_names_are_custom (fieldMap : QJsonObject) (entry : Entry) (rng : Rng)
    (i : Z) :
  ((readItem_fieldName fieldMap entry rng).1 ∉ EntryAttributes_DefaultAttributes)
  ∧ (readItem_urlKey i ∉ EntryAttributes_DefaultAttributes)
  ∧ ("identity_address" ∉ EntryAttributes_DefaultAttributes).
Proof.
  split; [|split].
  - destruct (readItem_fieldName_form fieldMap entry rng)
      as [[Hno Heq]|[_ [u Heq]]]; rewrite Heq; clear Heq; intros Hin.
    + assert (EntryAttributes_hasKey (QVariant_toString (value "name" fieldMap))
                (Entry_attributes entry) = true) as Hyes
        by (apply EntryAttributes_hasKey_true; by left).
      congruence.
    + set (key := _ +:+ _) in Hin.
      destruct (renamed_shape _ u key eq_refl) as (Hlen & Hget & _).
      unfold EntryAttributes_DefaultAttributes in Hin.
      repeat (apply elem_of_cons in Hin as [Hin|Hin];
              [rewrite Hin in Hlen, Hget; cbn [String.length] in Hlen;
               try lia;
               (assert (String.length (QVariant_toString (value "name" fieldMap)) = 2%nat)
                  as Hname by lia);
               rewrite Hname in Hget; cbn in Hget; discriminate|]).
      by apply elem_of_nil in Hin.
  - rewrite readItem_urlKey_eq. generalize (pretty i). intros s Hin.
    unfold EntryAttributes_DefaultAttributes in Hin.
    repeat (apply elem_of_cons in Hin as [Hin|Hin]; [cbn in Hin; discriminate|]).
    by apply elem_of_nil in Hin.
  - intros Hin. unfold EntryAttributes_DefaultAttributes in Hin.
    repeat (apply elem_of_cons in Hin as [Hin|Hin]; [discriminate|]).
    by apply elem_of_nil in Hin.
Qed.

(** A name that is on the entry and is not a renamed name is not used
    for any field. *)
Lemma readItem_fieldKeys_avoid (fields : list QJsonValue) (entry : Entry) (rng : Rng)
    (key : string) :
  is_Some (attrsOf entry !! key) →
  (∀ name u, key ≠ name +:+ "_" +:+ QString_mid (QUuid_toString u) 1 5) →
  key ∉ readItem_fieldKeys fields entry rng.
Proof.
  revert entry rng. induction fields as [|field fields IH]; intros entry rng Hkey Hshape.
  { apply not_elem_of_nil. }
  cbn [readItem_fieldKeys].
  assert (Hne : key ≠ (readItem_fieldName (QVariant_toMap field) entry rng).1).
  { destruct (readItem_fieldName_form (QVariant_toMap field) entry rng)
      as [[Hno Heq]|[_ [u Heq]]]; rewrite Heq.
    - intros ->. unfold EntryAttributes_hasKey in Hno.
      apply orb_false_iff in Hno as [_ Hno].
      by apply bool_decide_eq_false in Hno.
    - apply Hshape. }
  apply not_elem_of_cons. split; [done|].
  apply IH; [|done].
  rewrite readItem_field_eq. cbn [fst].
  change (attrsOf (Entry_setAttribute ?k ?v ?p ?e)) with (<[k := v]> (attrsOf e)).
  by rewrite lookup_insert_ne.
Qed.

Lemma identity_address_not_renamed (name : string) (u : QUuid) :
  "identity_address" ≠ name +:+ "_" +:+ QString_mid (QUuid_toString u) 1 5.
Proof.
  intros Heq. apply renamed_shape in Heq as (Hlen & Hget & _).
  cbn [String.length] in Hlen.
  assert (String.length name = 10%nat) as Hname by lia.
  rewrite Hname in Hget. cbn in Hget. discriminate.
Qed.

(** X7: no custom field can replace the identity address. When the item
    has an [identity] member, the returned entry has the attribute
    [identity_address] with the address text composed at lines 99-101,
    unprotected, whatever the [fields] of the item are: a field of that
    name is renamed, and no renamed name is [identity_address]. *)
Theorem readItem_identity_address_kept (item : QJsonObject) (rng : Rng) :
  contains "identity" item = true →
  let entry := (readItem item rng).1.1 in
  attrsOf entry !! "identity_address"
    = Some (identity_address (QVariant_toMap (value "identity" item)))
  ∧ "identity_address" ∉ protectedOf entry.
Proof.
  intros Hidentity. cbn zeta.
  assert (Hbefore : attrsOf (readItem_beforeFields item (supply rng (cursor rng)))
                      !! "identity_address"
                    = Some (identity_address (QVariant_toMap (value "identity" item)))).
  { unfold readItem_beforeFields, readItem_identity. rewrite Hidentity.
    cbn. apply lookup_insert_eq. }
  assert (Hnot : "identity_address" ∉
      readItem_fieldKeys (QVariant_toList (value "fields" item))
        (readItem_beforeFields item (supply rng (cursor rng)))
        (mkRng (supply rng) (S (cursor rng)))).
  { apply readItem_fieldKeys_avoid; [by rewrite Hbefore|].
    apply identity_address_not_renamed. }
  split.
  - rewrite readItem_attributes, readItem_fields_other by done. exact Hbefore.
  - rewrite readItem_protected, readItem_fields_other_protected by done.
    apply readItem_beforeFields_unprotected.
Qed.

Lemma pretty_below_10000 (k : nat) :
  Z.of_nat k < 10000 → (String.length (pretty (Z.of_nat k)) < 5)%nat.
Proof.
  intros Hk.
  assert (Hall : forallb (λ n, Nat.ltb (String.length (pretty (Z.of_nat n))) 5)
                   (seq 0 (Z.to_nat 10000)) = true).
  { vm_compute. reflexivity. }
  rewrite forallb_forall in Hall.
  apply Nat.ltb_lt, Hall, in_seq. lia.
Qed.

Lemma readItem_urlKey_not_renamed (i : Z) (name : string) (u : QUuid) :
  (String.length (pretty i) < 5)%nat →
  readItem_urlKey i ≠ name +:+ "_" +:+ QString_mid (QUuid_toString u) 1 5.
Proof.
  intros Hshort Heq. rewrite readItem_urlKey_eq in Heq.
  apply renamed_shape in Heq as (Hlen & Hunderscore & c & Hc & Hhex).
  rewrite string_length_app in Hlen. cbn [String.length] in Hlen.
  assert (Hname : (3 ≤ String.length name < 8)%nat) by lia.
  rewrite string_get_app_l in Hunderscore by (cbn; lia).
  destruct (String.length name) as [|[|[|[|[|[|[|[|n]]]]]]]] eqn:Hn; try lia;
    cbn in Hunderscore; try discriminate.
  assert (Hone : String.length (pretty i) = 1%nat) by lia.
  rewrite string_get_app_l in Hc by (cbn; lia).
  cbn in Hc. injection Hc as <-. cbn in Hhex. lia.
Qed.

Lemma readItem_beforeFields_overflow (item : QJsonObject) (u : QUuid)
    (uris : list QJsonValue) (first urlObj : QJsonValue) (k : nat) :
  contains "login" item = true →
  QVariant_toList (value "uris" (QVariant_toMap (value "login" item))) = uris →
  uris !! 0%nat = Some first →
  readItem_uri first ≠ "" →
  (1 ≤ k)%nat →
  uris !! k = Some urlObj →
  attrsOf (readItem_beforeFields item u) !! readItem_urlKey (Z.of_nat k)
    = Some (readItem_uri urlObj).
Proof.
  intros Hlogin Huris Hfirst Hne Hk Hlook.
  destruct uris as [|x rest]; [done|]. injection Hfirst as ->.
  destruct (readItem_basic_blank item u) as [Hurl0 _].
  destruct (readItem_login_uris item (readItem_basic item u) Hlogin)
    as (entry0 & Heq & Hurl & _).
  rewrite Huris in Heq. rewrite Hurl0 in Hurl.
  cbn [readItem_uris] in Heq. rewrite Hurl in Heq. cbn [QString_isEmpty] in Heq.
  unfold readItem_beforeFields.
  rewrite readItem_identity_other by apply readItem_urlKey_not_address.
  rewrite Heq. destruct k as [|k]; [lia|]. cbn in Hlook.
  replace (Z.of_nat (S k)) with (1 + Z.of_nat k) by lia.
  apply readItem_uris_overflow; [|done].
  by apply QString_isEmpty_false.
Qed.

(** X8: no custom field can replace an overflow URL with an index below
    10000. When the first element of [login.uris] has a non-empty uri
    text, the uri text of [uris[k]] (1 <= k < 10000) is the unprotected
    attribute [KP2A_URL_k] of the returned entry, whatever the [fields] of
    the item are and whatever UUIDs are drawn: the five characters after
    the underscore of a renamed name are hexadecimal digits. *)
Theorem readItem_overflow_url_kept (item : QJsonObject) (rng : Rng)
    (uris : list QJsonValue) (first urlObj : QJsonValue) (k : nat) :
  contains "login" item = true →
  QVariant_toList (value "uris" (QVariant_toMap (value "login" item))) = uris →
  uris !! 0%nat = Some first →
  readItem_uri first ≠ "" →
  (1 ≤ k)%nat →
  Z.of_nat k < 10000 →
  uris !! k = Some urlObj →
  let entry := (readItem item rng).1.1 in
  attrsOf entry !! readItem_urlKey (Z.of_nat k) = Some (readItem_uri urlObj)
  ∧ readItem_urlKey (Z.of_nat k) ∉ protectedOf entry.
Proof.
  intros Hlogin Huris Hfirst Hne Hk Hbound Hlook. cbn zeta.
  pose proof (readItem_beforeFields_overflow item (supply rng (cursor rng))
                uris first urlObj k Hlogin Huris Hfirst Hne Hk Hlook) as Hbefore.
  assert (Hnot : readItem_urlKey (Z.of_nat k) ∉
      readItem_fieldKeys (QVariant_toList (value "fields" item))
        (readItem_beforeFields item (supply rng (cursor rng)))
        (mkRng (supply rng) (S (cursor rng)))).
  { apply readItem_fieldKeys_avoid; [by rewrite Hbefore|].
    intros name u. by apply readItem_urlKey_not_renamed, pretty_below_10000. }
  split.
  - rewrite readItem_attributes, readItem_fields_other by done. exact Hbefore.
  - rewrite readItem_protected, readItem_fields_other_protected by done.
    apply readItem_beforeFields_unprotected.
Qed.

(** *** Members that are not read *)

Lemma value_cons_ne (k key : string) (v : QJsonValue) (o : QJsonObject) :
  k ≠ key → value key ((k, v) :: o) = value key o.
Proof. intros Hne. cbn. by apply String.eqb_neq in Hne as ->. Qed.

Lemma contains_cons_ne (k key : string) (v : QJsonValue) (o : QJsonObject) :
  k ≠ key → contains key ((k, v) :: o) = contains key o.
Proof. intros Hne. cbn. by apply String.eqb_neq in Hne as ->. Qed.

(** X9: a member of an item under a key that [readItem] does not look
    up has no effect: with it or without it the entry, the folder id and
    the use of the random source are the same. The [card] member is
    looked up (line 106) and has no effect either. *)
Theorem readItem_ignores_other_members (item : QJsonObject) (rng : Rng)
    (k : string) (v : QJsonValue) :
  k ∉ readItem_keys ∨ k = "card" →
  readItem ((k, v) :: item) rng = readItem item rng.
Proof.
  intros Hk.
  assert (Hne : ∀ key, key ∈ readItem_keys → key ≠ "card" → k ≠ key).
  { intros key Hkey Hcard ->. destruct Hk as [Hk| ->]; done. }
  assert (Hin : ∀ key, key ∈ readItem_keys ↔ bool_decide (key ∈ readItem_keys) = true).
  { intros key. by rewrite bool_decide_eq_true. }
  unfold readItem, readItem_beforeFields, readItem_identity, readItem_login,
    readItem_basic, readItem_finish.
  rewrite !value_cons_ne, !contains_cons_ne
    by (apply Hne; [by apply Hin|discriminate]).
  reflexivity.
Qed.

(** *** The groups of the folders *)

Lemma writeVault_folders_children (folders : list QJsonValue)
    (folderMap : gmap string GroupPtr) (db : Database) (rng : Rng) :
  let st := foldl writeVault_folder (folderMap, db, rng) folders in
  db_root st.1.2 = db_root db
  ∧ db_children st.1.2
      = (db_children db ++
         imap (λ j folder,
                 mkGroup (supply rng (cursor rng + j)) (folderName folder) []) folders)%list.
Proof.
  revert folderMap db rng.
  induction folders as [|folder folders IH]; intros folderMap db rng; cbn zeta.
  { cbn. by rewrite app_nil_r. }
  cbn [foldl]. rewrite writeVault_folder_eq.
  destruct (IH
    (<[writeVault_folderId folder := childGroup (length (db_children db))]> folderMap)
    (mkDatabase (db_root db)
       (db_children db ++
        [mkGroup (supply rng (cursor rng))
           (QJsonValue_toString (value "name" (QJsonValue_toObject folder))) []]))
    (mkRng (supply rng) (S (cursor rng)))) as [Hroot Hchildren].
  split; [exact Hroot|]. rewrite Hchildren. cbn [db_children supply cursor imap].
  rewrite <- app_assoc. cbn [app]. rewrite Nat.add_0_r. do 2 f_equal.
  apply imap_ext. intros j folder' _. cbn. do 2 f_equal. lia.
Qed.

Lemma alter_addEntry_label (entry : Entry) (groups : list Group) (i : nat) :
  Group_label <$> alter (Group_addEntry entry) i groups = Group_label <$> groups.
Proof.
  revert i. induction groups as [|g groups IH]; intros i; [done|].
  destruct i as [|i]; cbn; [done|]. by rewrite IH.
Qed.

Lemma writeVault_items_labels (items : list QJsonValue)
    (folderMap : gmap string GroupPtr) (db : Database) (rng : Rng) :
  let result := (foldl (writeVault_item folderMap) (db, rng) items).1 in
  Group_label (db_root result) = Group_label (db_root db)
  ∧ Group_label <$> db_children result = Group_label <$> db_children db.
Proof.
  revert db rng. induction items as [|item items IH]; intros db rng; [done|].
  cbn zeta. cbn [foldl]. rewrite writeVault_item_eq. cbn zeta.
  destruct (IH (Entry_setGroup (readItem (QJsonValue_toObject item) rng).1.1
                  (default rootGroup
                     (folderMap !! (readItem (QJsonValue_toObject item) rng).1.2)) db)
              (readItem (QJsonValue_toObject item) rng).2) as [Hroot Hchildren].
  rewrite Hroot, Hchildren.
  destruct (default rootGroup _) as [|i]; cbn; [done|].
  by rewrite alter_addEntry_label.
Qed.

(** X10: on a vault with both keys, the root keeps its identity and its
    name, the groups that the database had keep theirs, and one group per
    element of [folders] is appended in the order of [folders], the j-th
    with the j-th UUID drawn and with the name text of the folder; the
    loop over [items] neither renames nor reorders groups. *)
Theorem writeVaultToDatabase_group_labels (vault : QJsonObject) (db : Database)
    (rng : Rng) :
  contains "folders" vault = true →
  contains "items" vault = true →
  let result := (writeVaultToDatabase vault db rng).1 in
  Group_label (db_root result) = Group_label (db_root db)
  ∧ Group_label <$> db_children result
      = ((Group_label <$> db_children db) ++
         imap (λ j folder, (supply rng (cursor rng + j), folderName folder))
           (QJsonValue_toArray (value "folders" vault)))%list.
Proof.
  intros Hfolders Hitems. cbn zeta.
  rewrite writeVaultToDatabase_eq by done. cbn zeta.
  set (folders := QJsonValue_toArray (value "folders" vault)).
  destruct (writeVault_folders_children folders ∅ db rng) as [Hroot Hchildren].
  destruct (writeVault_items_labels (QJsonValue_toArray (value "items" vault))
              (foldl writeVault_folder (∅, db, rng) folders).1.1
              (foldl writeVault_folder (∅, db, rng) folders).1.2
              (foldl writeVault_folder (∅, db, rng) folders).2) as [Hroot' Hchildren'].
  rewrite Hroot', Hchildren', Hroot, Hchildren. split; [done|].
  rewrite fmap_app. f_equal. by rewrite fmap_imap.
Qed.

(** *** Identities *)

Lemma readItem_uuid (item : QJsonObject) (rng : Rng) :
  m_uuid (m_data (readItem item rng).1.1) = supply rng (cursor rng).
Proof.
  pose proof (readItem_core item rng) as Hcore.
  unfold readItem_login in Hcore.
  destruct (contains "login" item).
  - rewrite readItem_uris_core in Hcore. unfold readItem_basic in Hcore.
    destruct (contains "totp" _), (QVariant_toBool _);
      injection Hcore as -> _ _ _ _ _ _; done.
  - unfold readItem_basic in Hcore.
    destruct (QVariant_toBool _); injection Hcore as -> _ _ _ _ _ _; done.
Qed.

Lemma readItem_rng_advance (item : QJsonObject) (rng : Rng) :
  supply (readItem item rng).2 = supply rng
  ∧ (cursor rng < cursor (readItem item rng).2)%nat.
Proof.
  rewrite readItem_unfold. cbn zeta. cbn [snd].
  destruct (readItem_fields_rng (QVariant_toList (value "fields" item))
              (readItem_beforeFields item (supply rng (cursor rng)))
              (mkRng (supply rng) (S (cursor rng)))) as [Hsupply Hcursor].
  cbn [supply cursor] in *. split; [done|lia].
Qed.

(** The entries of a vault get their identities from pairwise different
    places of the random source, none before the place it stands at. *)
Lemma writeVault_readItems_uuids (items : list QJsonValue) (rng : Rng) :
  ∃ positions : list nat,
    (λ p : Entry * string, m_uuid (m_data p.1)) <$> writeVault_readItems items rng
      = supply rng <$> positions
    ∧ NoDup positions
    ∧ Forall (λ n, cursor rng ≤ n)%nat positions.
Proof.
  revert rng. induction items as [|item items IH]; intros rng.
  { exists []. split; [done|]. split; constructor. }
  cbn [writeVault_readItems].
  pose proof (readItem_uuid (QJsonValue_toObject item) rng) as Huuid.
  destruct (readItem_rng_advance (QJsonValue_toObject item) rng) as [Hsupply Hcursor].
  destruct (readItem (QJsonValue_toObject item) rng) as [[entry folderId] rng'].
  cbn [fst snd] in *.
  destruct (IH rng') as (positions & Heq & Hnodup & Hfrom).
  exists (cursor rng :: positions). split; [|split].
  - cbn [fmap list_fmap fst]. rewrite Huuid. f_equal.
    change (list_fmap ?A ?B ?f ?l) with (f <$> l). by rewrite Heq, Hsupply.
  - apply NoDup_cons. split; [|done].
    intros Hin. rewrite Forall_forall in Hfrom. apply Hfrom in Hin. lia.
  - constructor; [lia|]. eapply Forall_impl; [exact Hfrom|]. cbn. lia.
Qed.

Lemma writeVault_readItems_length (items : list QJsonValue) (rng : Rng) :
  length (writeVault_readItems items rng) = length items.
Proof.
  revert rng. induction items as [|item items IH]; intros rng; [done|].
  cbn [writeVault_readItems].
  destruct (readItem (QJsonValue_toObject item) rng) as [[entry folderId] rng'].
  cbn. by rewrite IH.
Qed.

Lemma alter_addEntry_perm (entry : Entry) (groups : list Group) (i : nat) :
  (i < length groups)%nat →
  concat (g_entries <$> alter (Group_addEntry entry) i groups)
    ≡ₚ entry :: concat (g_entries <$> groups).
Proof.
  revert i. induction groups as [|g groups IH]; intros i Hi; cbn in Hi; [lia|].
  destruct i as [|i]; cbn.
  - rewrite <- app_assoc. cbn. by rewrite <- Permutation_middle.
  - rewrite IH by lia. by rewrite <- Permutation_middle.
Qed.

Lemma Entry_setGroup_perm (entry : Entry) (g : GroupPtr) (db : Database) :
  validPtr g db →
  Database_entries (Entry_setGroup entry g db) ≡ₚ entry :: Database_entries db.
Proof.
  intros Hvalid. unfold Database_entries. destruct g as [|i]; cbn in *.
  - rewrite <- app_assoc. cbn. by rewrite <- Permutation_middle.
  - rewrite alter_addEntry_perm by done. by rewrite <- Permutation_middle.
Qed.

(** The database owns, after the loop over [items], the entries it had
    and the entries that [readItem] returned, each once. *)
Lemma writeVault_items_perm (items : list QJsonValue)
    (folderMap : gmap string GroupPtr) (db : Database) (rng : Rng) :
  (∀ id g, folderMap !! id = Some g → validPtr g db) →
  Database_entries (foldl (writeVault_item folderMap) (db, rng) items).1
    ≡ₚ (Database_entries db ++ (writeVault_readItems items rng).*1)%list.
Proof.
  revert db rng. induction items as [|item items IH]; intros db rng Hvalid.
  { cbn. by rewrite app_nil_r. }
  cbn [foldl writeVault_readItems]. rewrite writeVault_item_eq. cbn zeta.
  destruct (readItem (QJsonValue_toObject item) rng) as [[entry folderId] rng'].
  cbn [fst snd].
  assert (Hptr : validPtr (default rootGroup (folderMap !! folderId)) db).
  { destruct (folderMap !! folderId) eqn:Hg; [by eapply Hvalid|done]. }
  rewrite IH.
  - rewrite Entry_setGroup_perm by done. cbn [fmap list_fmap fst].
    by rewrite <- Permutation_middle.
  - intros id g Hg. specialize (Hvalid id g Hg). destruct g; [done|].
    cbn in *. by rewrite Entry_setGroup_children.
Qed.

Lemma concat_no_entries (groups : list Group) :
  Forall (λ g, g_entries g = []) groups → concat (g_entries <$> groups) = [].
Proof.
  induction 1 as [|g groups Hg _ IH]; [done|]. cbn. by rewrite Hg, IH.
Qed.

Lemma writeVaultToDatabase_entries_perm (vault : QJsonObject) (db : Database)
    (rng : Rng) :
  contains "folders" vault = true →
  contains "items" vault = true →
  Database_entries (writeVaultToDatabase vault db rng).1
    ≡ₚ (Database_entries db ++
        (writeVault_readItems (QJsonValue_toArray (value "items" vault))
           (mkRng (supply rng)
              (cursor rng + length (QJsonValue_toArray (value "folders" vault))))).*1)%list.
Proof.
  intros Hfolders Hitems.
  rewrite writeVaultToDatabase_eq by done. cbn zeta.
  set (folders := QJsonValue_toArray (value "folders" vault)).
  destruct (writeVault_folders_spec folders ∅ db rng)
    as ((groups & Hdb & Hlen & Hempty) & Hrng & _ & _ & Hvalid).
  fold folders in Hdb, Hrng.
  rewrite writeVault_items_perm.
  - rewrite Hrng, Hdb. unfold Database_entries at 1. cbn [db_root db_children].
    rewrite fmap_app, concat_app, (concat_no_entries groups Hempty), app_nil_r.
    done.
  - apply Hvalid. intros id g Hg. by rewrite lookup_empty in Hg.
Qed.

Lemma writeVaultToDatabase_children (vault : QJsonObject) (db : Database) (rng : Rng) :
  contains "folders" vault = true →
  contains "items" vault = true →
  Group_label (db_root (writeVaultToDatabase vault db rng).1) = Group_label (db_root db)
  ∧ Group_label <$> db_children (writeVaultToDatabase vault db rng).1
      = ((Group_label <$> db_children db) ++
         zip (supply rng <$> seq (cursor rng)
                (length (QJsonValue_toArray (value "folders" vault))))
             (folderName <$> QJsonValue_toArray (value "folders" vault)))%list.
Proof.
  intros Hfolders Hitems.
  rewrite writeVaultToDatabase_eq by done. cbn zeta.
  set (folders := QJsonValue_toArray (value "folders" vault)).
  destruct (writeVault_folders_children folders ∅ db rng) as [Hroot Hchildren].
  destruct (writeVault_items_labels (QJsonValue_toArray (value "items" vault))
              (foldl writeVault_folder (∅, db, rng) folders).1.1
              (foldl writeVault_folder (∅, db, rng) folders).1.2
              (foldl writeVault_folder (∅, db, rng) folders).2) as [Hroot' Hchildren'].
  rewrite Hroot', Hchildren', Hroot, Hchildren. split; [done|].
  rewrite fmap_app. f_equal. rewrite fmap_imap.
  generalize (cursor rng). clear. induction folders as [|folder folders IH]; intros c; [done|].
  cbn [imap length seq fmap list_fmap zip zip_with]. rewrite Nat.add_0_r. f_equal.
  rewrite <- IH. apply imap_ext. intros j x _. cbn.
  by replace (c + S j)%nat with (S (c + j)) by lia.
Qed.

(** X11: the converter reports what it built: when the file opens and
    its JSON object has the keys [folders] and [items], the database that
    [convert] returns has one child group of the root per element of
    [folders], owns one entry per element of [items], and the reader has
    no error. *)
Theorem convert_vault_counts (fs : string → FileState) (path : string)
    (reader : BitwardenReader) (rng : Rng) (content : string) :
  fs path = Opens content →
  contains "folders" (QJsonDocument_object content) = true →
  contains "items" (QJsonDocument_object content) = true →
  ∃ db reader' rng',
    convert fs path reader rng = (Some db, reader', rng')
    ∧ length (db_children db)
        = length (QJsonValue_toArray (value "folders" (QJsonDocument_object content)))
    ∧ length (Database_entries db)
        = length (QJsonValue_toArray (value "items" (QJsonDocument_object content)))
    ∧ hasError reader' = false.
Proof.
  intros Hfile Hfolders Hitems.
  unfold convert. rewrite Hfile. unfold Database_create, createUuid. cbn zeta.
  set (db0 := mkDatabase (Group_setUuid (supply rng (cursor rng)) Group_new) []).
  set (rng0 := mkRng (supply rng) (S (cursor rng))).
  pose proof (writeVaultToDatabase_entries_perm _ db0 rng0 Hfolders Hitems) as Hperm.
  destruct (writeVaultToDatabase_children _ db0 rng0 Hfolders Hitems) as [_ Hchildren].
  destruct (writeVaultToDatabase (QJsonDocument_object content) db0 rng0) as [db rng'].
  cbn [fst] in *. eexists _, _, _. split; [reflexivity|]. split; [|split].
  - apply (f_equal length) in Hchildren.
    rewrite length_fmap, length_app, length_zip, !length_fmap, length_seq in Hchildren.
    cbn in Hchildren. lia.
  - apply Permutation_length in Hperm.
    rewrite length_app, length_fmap, writeVault_readItems_length in Hperm.
    exact Hperm.
  - done.
Qed.

(** X12: identities are unique. When the random source never repeats a
    UUID, the root group, the groups of the folders and the entries of
    the database that [convert] returns have pairwise different
    identities; none is taken from the vault. *)
Theorem convert_unique_uuids (fs : string → FileState) (path : string)
    (reader : BitwardenReader) (rng : Rng) (db : Database) :
  (∀ m n, supply rng m = supply rng n → m = n) →
  (convert fs path reader rng).1.1 = Some db →
  NoDup (Database_uuids db).
Proof.
  intros Hinj. unfold convert. destruct (fs path) as [| |content]; try done.
  unfold Database_create, createUuid. cbn zeta.
  set (db0 := mkDatabase (Group_setUuid (supply rng (cursor rng)) Group_new) []).
  set (vault := QJsonDocument_object content).
  destruct (contains "folders" vault && contains "items" vault)%bool eqn:Hkeys.
  - apply andb_true_iff in Hkeys as [Hfolders Hitems].
    pose proof (writeVaultToDatabase_entries_perm vault db0
                  (mkRng (supply rng) (S (cursor rng))) Hfolders Hitems) as Hperm.
    destruct (writeVaultToDatabase_children vault db0
                (mkRng (supply rng) (S (cursor rng))) Hfolders Hitems)
      as [Hroot Hchildren].
    destruct (writeVaultToDatabase vault db0 _) as [db' rng'].
    cbn [fst snd supply cursor] in *. intros [= <-].
    set (folders := QJsonValue_toArray (value "folders" vault)) in *.
    destruct (writeVault_readItems_uuids (QJsonValue_toArray (value "items" vault))
                (mkRng (supply rng) (S (cursor rng) + length folders)))
      as (positions & Huuids & Hnodup & Hfrom).
    cbn [supply cursor] in Huuids, Hfrom.
    assert (Hg : g_uuid <$> db_children db'
                 = supply rng <$> seq (S (cursor rng)) (length folders)).
    { transitivity (fst <$> (Group_label <$> db_children db')).
      - by rewrite <- list_fmap_compose.
      - rewrite Hchildren. cbn [db_children db0 fmap list_fmap app].
        change (list_fmap ?A ?B ?f ?l) with (f <$> l).
        rewrite fst_zip; [done|]. by rewrite !length_fmap, length_seq. }
    assert (Hr : g_uuid (db_root db') = supply rng (cursor rng)).
    { by injection Hroot as ->. }
    assert (He : (λ e, m_uuid (m_data e)) <$> Database_entries db'
                 ≡ₚ supply rng <$> positions).
    { rewrite Hperm. change (Database_entries db0) with (@nil Entry). cbn [app].
      rewrite <- list_fmap_compose. by rewrite <- Huuids. }
    unfold Database_uuids. rewrite Hr, Hg, He.
    rewrite <- fmap_app, <- fmap_cons.
    apply NoDup_fmap_2; [exact Hinj|].
    apply NoDup_cons. split.
    + rewrite elem_of_app, elem_of_seq. intros [Hin|Hin]; [lia|].
      rewrite Forall_forall in Hfrom. apply Hfrom in Hin. lia.
    + apply NoDup_app. split; [apply NoDup_seq|]. split; [|done].
      intros n Hseq Hin. apply elem_of_seq in Hseq.
      rewrite Forall_forall in Hfrom. apply Hfrom in Hin. lia.
  - rewrite writeVaultToDatabase_early.
    + cbn. intros [= <-]. cbn. apply NoDup_singleton.
    + apply andb_false_iff in Hkeys. tauto.
Qed.


Lemma filter_all {A} (P : A → Prop) `{∀ x, Decision (P x)} (l : list A) :
  (∀ x, P x) → filter P l = l.
Proof.
  intros HP. induction l as [|x l IH]; [done|].
  rewrite filter_cons, IH. destruct (decide (P x)) as [|Hx]; [done|].
  by destruct (Hx (HP x)).
Qed.

(** X13: a vault whose [folders] member is an empty array, or is not an
    array at all, gets no group: every entry is attached to the root
    group, after the entries the root had, in the order of [items]. *)
Theorem writeVaultToDatabase_no_folders (vault : QJsonObject) (db : Database)
    (rng : Rng) :
  contains "folders" vault = true →
  contains "items" vault = true →
  QJsonValue_toArray (value "folders" vault) = [] →
  let result := (writeVaultToDatabase vault db rng).1 in
  db_children result = db_children db
  ∧ Database_entriesOf rootGroup result
      = (Database_entriesOf rootGroup db ++
         (writeVault_readItems (QJsonValue_toArray (value "items" vault)) rng).*1)%list.
Proof.
  intros Hfolders Hitems Hnone. cbn zeta.
  rewrite writeVaultToDatabase_eq by done. cbn zeta. rewrite Hnone. cbn [foldl fst snd].
  split.
  - generalize db rng. induction (QJsonValue_toArray (value "items" vault))
      as [|item items IH]; intros db' rng'; [done|].
    cbn [foldl]. rewrite writeVault_item_eq. cbn zeta. rewrite IH.
    by rewrite lookup_empty.
  - rewrite writeVault_items_entriesOf by done. f_equal. f_equal.
    apply filter_all. intros p. by rewrite lookup_empty.
Qed.


(** *** Missing members *)

Lemma value_missing (key : string) (o : QJsonObject) :
  contains key o = false → value key o = JUndefined.
Proof.
  induction o as [|[k v] o IH]; [done|]. cbn.
  destruct (String.eqb k key); [discriminate|exact IH].
Qed.

(** X14: a missing time is the epoch: an item without [createdAt] gets
    the creation time 0 seconds after the epoch (UTC), and an item
    without [updatedAt] gets that instant as last-modification and as
    last-access time; neither is taken from the clock. *)
Theorem readItem_times_missing (item : QJsonObject) (rng : Rng) :
  let timeInfo := Entry_timeInfo (readItem item rng).1.1 in
  (contains "createdAt" item = false → creationTime timeInfo = mkDateTime 0 UTC)
  ∧ (contains "updatedAt" item = false →
     lastModificationTime timeInfo = mkDateTime 0 UTC
     ∧ lastAccessTime timeInfo = mkDateTime 0 UTC).
Proof.
  cbn zeta. rewrite readItem_timeInfo. cbn zeta. split.
  - intros Hmissing. by rewrite (value_missing _ _ Hmissing).
  - intros Hmissing. by rewrite (value_missing _ _ Hmissing).
Qed.

(** X15: an item without [login], without [identity] and without
    [fields] (a note) gives an entry with an empty primary URL, no
    username, no password, no TOTP settings and no attribute at all. *)
Theorem readItem_plain_item (item : QJsonObject) (rng : Rng) :
  contains "login" item = false →
  contains "identity" item = false →
  QVariant_toList (value "fields" item) = [] →
  let entry := (readItem item rng).1.1 in
  Entry_url entry = ""
  ∧ attrsOf entry = ∅
  ∧ protectedOf entry = ∅
  ∧ m_username (m_data entry) = ""
  ∧ m_password (m_data entry) = ""
  ∧ m_totp (m_data entry) = None.
Proof.
  intros Hlogin Hidentity Hfields. cbn zeta.
  rewrite readItem_unfold. cbn zeta. rewrite Hfields.
  unfold readItem_beforeFields, readItem_identity, readItem_login, readItem_basic.
  rewrite Hlogin, Hidentity.
  by destruct (QVariant_toBool _).
Qed.

End Properties.

(** ** The properties at the sample inputs *)

#[local] Existing Instance sampleCollaborators.

(** The times of the sample login. *)
Lemma readItem_times_witness :
  let timeInfo := Entry_timeInfo (readItem item_login sampleRng).1.1 in
  creationTime timeInfo = mkDateTime 1600000000000 UTC
  ∧ lastModificationTime timeInfo = mkDateTime 1650000000000 UTC
  ∧ lastAccessTime timeInfo = lastModificationTime timeInfo
  ∧ QDateTime_toSecsSinceEpoch (creationTime timeInfo) = 1600000000
  ∧ QDateTime_toSecsSinceEpoch (lastModificationTime timeInfo) = 1650000000
  ∧ QDateTime_toSecsSinceEpoch (lastAccessTime timeInfo) = 1650000000.
Proof.
  apply (readItem_times item_login sampleRng 1600000000 1650000000).
  - reflexivity.
  - reflexivity.
  - lia.
  - lia.
Defined.

(** The three uris of the sample login: the first is the primary URL,
    the others are the overflow attributes 1 and 2. *)
Lemma readItem_uris_first_nonempty_witness :
  let entry := (readItem item_login sampleRng).1.1 in
  Entry_url entry = "https://a.example"
  ∧ attrsOf entry !! "KP2A_URL_1" = Some "https://b.example"
  ∧ attrsOf entry !! "KP2A_URL_2" = Some "https://c.example".
Proof.
  destruct (readItem_uris_first_nonempty item_login sampleRng
              [JObject [("uri", JString "https://a.example")];
               JObject [("uri", JString "https://b.example")];
               JObject [("uri", JString "https://c.example")]]
              (JObject [("uri", JString "https://a.example")]))
    as [Hurl Hoverflow].
  - reflexivity.
  - reflexivity.
  - reflexivity.
  - discriminate.
  - split; [exact Hurl|]. split.
    + apply (Hoverflow 1%nat (JObject [("uri", JString "https://b.example")]));
        [lia|reflexivity|compute_done].
    + apply (Hoverflow 2%nat (JObject [("uri", JString "https://c.example")]));
        [lia|reflexivity|compute_done].
Defined.

(** With an empty first uri, the primary URL is the second uri and the
    overflow attribute 1 holds the third, not the second. *)
Lemma readItem_uris_first_empty_counterexample :
  let uris := QVariant_toList (value "uris" (QVariant_toMap (value "login" item_leading_empty_uri))) in
  let entry := (readItem item_leading_empty_uri sampleRng).1.1 in
  length uris = 3%nat
  ∧ (readItem_uri <$> uris !! 0%nat) = Some ""
  ∧ (readItem_uri <$> uris !! 1%nat) = Some "https://a.example"
  ∧ Entry_url entry = "https://a.example"
  ∧ attrsOf entry !! readItem_urlKey 1 = Some "https://b.example"
  ∧ attrsOf entry !! readItem_urlKey 2 = None.
Proof. cbn zeta. repeat split; vm_compute; reflexivity. Qed.

(** The same item, read with the leading empty uri set aside. *)
Lemma readItem_uris_leading_empty_witness :
  let entry := (readItem item_leading_empty_uri sampleRng).1.1 in
  Entry_url entry = "https://a.example"
  ∧ attrsOf entry !! "KP2A_URL_1" = Some "https://b.example"
  ∧ attrsOf entry !! "KP2A_URL_2" = None.
Proof.
  destruct (readItem_uris_leading_empty item_leading_empty_uri sampleRng
              [JObject [("uri", JString "")]]
              [JObject [("uri", JString "https://a.example")];
               JObject [("uri", JString "https://b.example")]])
    as [Hurl Hoverflow].
  - reflexivity.
  - reflexivity.
  - by repeat constructor.
  - discriminate.
  - split; [exact Hurl|]. split.
    + apply (Hoverflow 0%nat). compute_done.
    + apply (Hoverflow 1%nat). compute_done.
Defined.

(** The sample login has two fields named [pin]: both are attributes,
    next to the two overflow URLs; the second is renamed with the second
    UUID of the random source. A field named [Title] is renamed on a new
    entry, which has that default attribute. *)
Lemma readItem_fields_disambiguated_witness :
  let entry := (readItem item_login sampleRng).1.1 in
  size (attrsOf entry) = 4%nat
  ∧ attrsOf entry !! "pin" = Some "1"
  ∧ attrsOf entry !! "pin_3f2a9" = Some "2"
  ∧ attrsOf entry !! "KP2A_URL_1" = Some "https://b.example"
  ∧ attrsOf (readItem_field (Entry_new, sampleRng) field_named_Title).1
      = {["Title_3f2a9" := "Dr."]}
  ∧ (readItem_field (Entry_new, sampleRng) field_named_Title).2 = mkRng (supply sampleRng) 1.
Proof.
  destruct (readItem_fields_disambiguated item_login sampleRng)
    as (_ & Hstep & Hfresh).
  destruct Hfresh as (Hsize & Hkept & Hfields).
  - compute_done.
  - apply Forall_forall. compute_done.
  - destruct (Hstep Entry_new sampleRng field_named_Title) as (_ & _ & Hrenamed).
    destruct (Hrenamed eq_refl) as (_ & Hattrs & _ & Hrng).
    split; [exact Hsize|].
    split; [|split; [|split; [|split]]].
    + destruct (Hfields 0%nat _ eq_refl) as (key & Hkey & Hval & _).
      vm_compute in Hkey. injection Hkey as <-. exact Hval.
    + destruct (Hfields 1%nat _ eq_refl) as (key & Hkey & Hval & _).
      vm_compute in Hkey. injection Hkey as <-. exact Hval.
    + eapply lookup_weaken; [|exact Hkept]. reflexivity.
    + rewrite Hattrs. vm_compute. reflexivity.
    + exact Hrng.
Defined.

(** Three fields named [pin], and two UUIDs that start with the same five
    digits: the second and the third field are stored under one name, the
    third replaces the second, and no attribute holds the value "2". *)
Lemma readItem_fields_same_suffix_counterexample :
  let entry := (readItem item_three_fields sampleRng).1.1 in
  length (QVariant_toList (value "fields" item_three_fields)) = 3%nat
  ∧ readItem_storedNames item_three_fields sampleRng = ["pin"; "pin_3f2a9"; "pin_3f2a9"]
  ∧ supply sampleRng 1 ≠ supply sampleRng 2
  ∧ attrsOf entry = {["pin" := "1"; "pin_3f2a9" := "3"]}
  ∧ ∀ key, attrsOf entry !! key ≠ Some "2".
Proof.
  cbn zeta.
  assert (Hmap : attrsOf (readItem item_three_fields sampleRng).1.1
                 = {["pin" := "1"; "pin_3f2a9" := "3"]}).
  { vm_compute. reflexivity. }
  split; [|split; [|split; [|split]]].
  - reflexivity.
  - vm_compute. reflexivity.
  - vm_compute. discriminate.
  - exact Hmap.
  - intros key. rewrite Hmap. intros Hkey.
    apply lookup_insert_Some in Hkey as [[_ Hkey]|[_ Hkey]]; [discriminate|].
    apply lookup_singleton_Some in Hkey as [_ Hkey]. discriminate.
Qed.

(** A readable file whose text is no vault converts to an empty database
    without error. *)
Lemma convert_vault_missing_key_witness :
  ∃ db reader' rng',
    convert sampleFiles "/vault.json" (mkReader "stale") sampleRng
      = (Some db, reader', rng')
    ∧ db_children db = []
    ∧ Database_entries db = []
    ∧ hasError reader' = false.
Proof.
  apply (convert_vault_missing_key sampleFiles "/vault.json" (mkReader "stale")
           sampleRng "not a vault").
  - reflexivity.
  - left. reflexivity.
Defined.

(** The sample vault: three folders, two of one id, and four items. *)
Lemma writeVaultToDatabase_counts_witness :
  let result := (writeVaultToDatabase vault_sample sampleDatabase sampleRng1).1 in
  length (db_children result) = 3%nat ∧ length (Database_entries result) = 4%nat.
Proof.
  apply (writeVaultToDatabase_counts vault_sample sampleDatabase sampleRng1).
  - reflexivity.
  - reflexivity.
Defined.

(** The sample vault: the first folder is shadowed by the third, which
    has the same id. *)
Lemma writeVaultToDatabase_groups_witness :
  let result := (writeVaultToDatabase vault_sample sampleDatabase sampleRng1).1 in
  titles (Database_entriesOf rootGroup result) = ["wifi"; "Jane"]
  ∧ titles (Database_entriesOf (childGroup 0) result) = []
  ∧ titles (Database_entriesOf (childGroup 1) result) = ["bank"]
  ∧ titles (Database_entriesOf (childGroup 2) result) = ["mail"].
Proof.
  destruct (writeVaultToDatabase_groups vault_sample sampleDatabase sampleRng1)
    as [Hroot Hchild].
  - reflexivity.
  - reflexivity.
  - assert (Hnone : length (db_children sampleDatabase) = 0%nat) by reflexivity.
    rewrite Hnone in Hchild. cbn [Nat.add] in Hchild.
    cbn zeta. split; [|split; [|split]].
    + rewrite Hroot. vm_compute. reflexivity.
    + rewrite (Hchild 0%nat "f1" eq_refl). vm_compute. reflexivity.
    + rewrite (Hchild 1%nat "f2" eq_refl). vm_compute. reflexivity.
    + rewrite (Hchild 2%nat "f1" eq_refl). vm_compute. reflexivity.
Defined.

(** A folder without id receives the items without folder; the root
    receives none. *)
Lemma writeVaultToDatabase_empty_folder_id_counterexample :
  let items := QJsonValue_toArray (value "items" vault_folder_without_id) in
  let result :=
    (writeVaultToDatabase vault_folder_without_id sampleDatabase sampleRng1).1 in
  (contains "folderId" ∘ QJsonValue_toObject <$> items) = [false; true]
  ∧ (value "folderId" ∘ QJsonValue_toObject <$> items) = [JUndefined; JString ""]
  ∧ titles (Database_entriesOf rootGroup result) = []
  ∧ titles (Database_entriesOf (childGroup 0) result) = ["mail"; "bank"].
Proof. cbn zeta. repeat split; vm_compute; reflexivity. Qed.

(** ** The further properties at the sample inputs *)

(** The third field named [pin] is stored under the name of the second
    and decides the attribute. *)
Lemma readItem_fields_last_wins_witness :
  let entry := (readItem item_three_fields sampleRng).1.1 in
  attrsOf entry !! "pin_3f2a9" = Some "3"
  ∧ ("pin_3f2a9" ∈ protectedOf entry ↔ 0 = 1).
Proof.
  apply (readItem_fields_last_wins item_three_fields sampleRng 2%nat
           (JObject [("name", JString "pin"); ("value", JString "3")]) "pin_3f2a9").
  - reflexivity.
  - vm_compute. reflexivity.
  - compute_done.
Defined.

(** A field named [identity_address] does not replace the address. *)
Lemma readItem_identity_address_kept_witness :
  let entry := (readItem item_identity_field sampleRng).1.1 in
  attrsOf entry !! "identity_address"
    = Some ("1 North Calle Cesar Chavez" +:+ LF +:+ "Santa Barbara, CA 93103" +:+ LF
            +:+ "United States")
  ∧ "identity_address" ∉ protectedOf entry.
Proof.
  apply (readItem_identity_address_kept item_identity_field sampleRng).
  reflexivity.
Defined.

(** The second uri of the sample login, which has two fields. *)
Lemma readItem_overflow_url_kept_witness :
  let entry := (readItem item_login sampleRng).1.1 in
  attrsOf entry !! "KP2A_URL_1" = Some "https://b.example"
  ∧ "KP2A_URL_1" ∉ protectedOf entry.
Proof.
  apply (readItem_overflow_url_kept item_login sampleRng
           [JObject [("uri", JString "https://a.example")];
            JObject [("uri", JString "https://b.example")];
            JObject [("uri", JString "https://c.example")]]
           (JObject [("uri", JString "https://a.example")])
           (JObject [("uri", JString "https://b.example")]) 1%nat).
  - reflexivity.
  - reflexivity.
  - reflexivity.
  - discriminate.
  - lia.
  - lia.
  - reflexivity.
Defined.

(** A card has no effect on the sample login. *)
Lemma readItem_ignores_other_members_witness :
  readItem (("card", JObject [("number", JString "1234567891011121")]) :: item_login)
    sampleRng
  = readItem item_login sampleRng.
Proof.
  apply (readItem_ignores_other_members item_login sampleRng "card").
  right. reflexivity.
Defined.

(** The groups of the sample vault. *)
Lemma writeVaultToDatabase_group_labels_witness :
  let result := (writeVaultToDatabase vault_sample sampleDatabase sampleRng1).1 in
  g_name <$> db_children result = ["Work"; "Home"; "Work again"]
  ∧ g_uuid <$> db_children result
      = [supply sampleRng 1; supply sampleRng 2; supply sampleRng 3].
Proof.
  destruct (writeVaultToDatabase_group_labels vault_sample sampleDatabase sampleRng1)
    as [_ Hchildren].
  - reflexivity.
  - reflexivity.
  - cbn zeta. split.
    + apply (f_equal (fmap snd)) in Hchildren.
      rewrite <- list_fmap_compose in Hchildren. exact Hchildren.
    + apply (f_equal (fmap fst)) in Hchildren.
      rewrite <- list_fmap_compose in Hchildren. exact Hchildren.
Defined.

(** The conversion of a file that holds the sample vault. *)
Lemma convert_vault_counts_witness :
  ∃ db reader' rng',
    convert (H := vaultCollaborators) sampleFiles "/vault.json" (mkReader "stale")
      sampleRng = (Some db, reader', rng')
    ∧ length (db_children db) = 3%nat
    ∧ length (Database_entries db) = 4%nat
    ∧ hasError reader' = false.
Proof.
  apply (convert_vault_counts (H := vaultCollaborators) sampleFiles "/vault.json"
           (mkReader "stale") sampleRng "not a vault").
  - reflexivity.
  - reflexivity.
  - reflexivity.
Defined.

Lemma convert_unique_uuids_witness :
  NoDup (Database_uuids
           (writeVaultToDatabase (H := vaultCollaborators) vault_sample
              sampleDatabase sampleRng1).1).
Proof.
  apply (convert_unique_uuids (H := vaultCollaborators) sampleFiles "/vault.json"
           (mkReader "") sampleRng).
  - intros m n Heq. unfold sampleRng in Heq. cbn [supply] in Heq.
    apply N.add_cancel_l in Heq. lia.
  - vm_compute. reflexivity.
Defined.

(** With [folders] null both entries go to the root. *)
Lemma writeVaultToDatabase_no_folders_witness :
  let result := (writeVaultToDatabase vault_null_folders sampleDatabase sampleRng1).1 in
  db_children result = []
  ∧ titles (Database_entriesOf rootGroup result) = ["door code"; "bank"].
Proof.
  destruct (writeVaultToDatabase_no_folders vault_null_folders sampleDatabase sampleRng1)
    as [Hchildren Hroot].
  - reflexivity.
  - reflexivity.
  - reflexivity.
  - cbn zeta. split; [exact Hchildren|].
    rewrite Hroot. vm_compute. reflexivity.
Defined.

(** The sample identity has no times. *)
Lemma readItem_times_missing_witness :
  let timeInfo := Entry_timeInfo (readItem item_identity sampleRng).1.1 in
  creationTime timeInfo = mkDateTime 0 UTC
  ∧ lastModificationTime timeInfo = mkDateTime 0 UTC
  ∧ lastAccessTime timeInfo = mkDateTime 0 UTC.
Proof.
  destruct (readItem_times_missing item_identity sampleRng) as [Hcreated Hupdated].
  cbn zeta. split; [exact (Hcreated eq_refl)|exact (Hupdated eq_refl)].
Defined.

(** The sample note. *)
Lemma readItem_plain_item_witness :
  let entry := (readItem item_note sampleRng).1.1 in
  Entry_url entry = ""
  ∧ attrsOf entry = ∅
  ∧ protectedOf entry = ∅
  ∧ m_username (m_data entry) = ""
  ∧ m_password (m_data entry) = ""
  ∧ m_totp (m_data entry) = None.
Proof.
  apply (readItem_plain_item item_note sampleRng).
  - reflexivity.
  - reflexivity.
  - reflexivity.
Defined.
